(** * ZKS-AUTH: the TOTP core of [src/totp.js]

    A shallow embedding of class [TOTP] (Base32 decoding, the from-scratch
    SHA-1 and HMAC-SHA1 engines, dynamic truncation, code generation, the
    countdown and the secret validator), with the JavaScript number and
    string semantics the code relies on written out, and of class
    [ZKSAuth], the page in front of it, as the effects of its methods on
    the page.

    - A JavaScript number that holds an integer is a [Z]; the 32-bit
      conversions of the bitwise operators are explicit ([toInt32],
      [toUint32]), and so is the reduction of a shift count modulo 32.
    - A JavaScript string is the list of its UTF-16 code units.
    - A [Uint8Array] is a [list Z] of bytes.
    - A method returns a value or throws ([completion]).
    - What the host provides ([String.prototype.toUpperCase], [Date.now],
      [crypto.subtle]) is a record [Host] the methods take as argument.

    Module [RFC] holds the reference algorithms (RFC 3174, 2104, 4226,
    6238 and the Base32 decoding of the specification) the methods are
    compared with.

    The results, in the order of the file: known answers; the countdown;
    dynamic truncation; the validator; the failure of the decoder; the
    Base32 decoder; code generation on a validated secret; the padding of
    the SHA-1 engine, whose length field repeats the low word of the bit
    length in place of the high word; code generation against RFC 6238
    where the HMAC is native; and the fallback engines against the
    reference: apart from that length field, [sha1Simple] is SHA-1 and
    [hmacSha1Simple] is RFC 2104 over it; further properties of the
    methods of [TOTP]; and the application: what [generateCode] does,
    what the page can display, and the intervals it leaves running. *)

From Stdlib Require Import String Ascii ZArith NArith List Bool Lia.
Import ListNotations.
Local Open Scope Z_scope.

(** ** JavaScript numbers restricted to integers *)

Module JS.

(** ECMAScript ToInt32 and ToUint32 on an integer. *)
Definition toUint32 (x : Z) : Z := x mod 2 ^ 32.
Definition toInt32 (x : Z) : Z := (x + 2 ^ 31) mod 2 ^ 32 - 2 ^ 31.

(** [a & b], [a | b], [a ^ b], [~a]: both operands through ToInt32, the
    result a signed 32-bit integer. *)
Definition band (a b : Z) : Z := Z.land (toInt32 a) (toInt32 b).
Definition bor (a b : Z) : Z := Z.lor (toInt32 a) (toInt32 b).
Definition bxor (a b : Z) : Z := Z.lxor (toInt32 a) (toInt32 b).
Definition bnot (a : Z) : Z := Z.lnot (toInt32 a).

(** [a << n]: the shift count is taken modulo 32, the result wraps to a
    signed 32-bit integer. *)
Definition shl (a n : Z) : Z :=
  toInt32 (Z.shiftl (toInt32 a) (toUint32 n mod 32)).

(** [a >>> n]: the left operand through ToUint32, the shift count modulo
    32, the result an unsigned 32-bit integer. *)
Definition ushr (a n : Z) : Z :=
  Z.shiftr (toUint32 a) (toUint32 n mod 32).

(** [a % b] takes the sign of the dividend. *)
Definition rem (a b : Z) : Z := Z.rem a b.

(** [Math.floor(a / b)] for integers [a] and [b > 0].  The double division
    rounds, yet for [|a| < 2^53] and the divisors of this file (30, 256,
    1000) the floor of the rounded quotient is the floor of the exact one. *)
Definition floorDiv (a b : Z) : Z := a / b.

(** What evaluating an expression or calling a method yields: a value, or
    a thrown exception (for an [async] method: a promise that is resolved,
    or one that is rejected). *)
Inductive error : Type :=
| TypeError
| InvalidBase32Character (c : N)
| HostError.

Inductive completion (A : Type) : Type :=
| Normal (a : A)
| Throw (e : error).
Arguments Normal {A} a.
Arguments Throw {A} e.

Definition bind {A B} (m : completion A) (k : A -> completion B)
  : completion B :=
  match m with
  | Normal a => k a
  | Throw e => Throw e
  end.

(** [try { body } catch { handler }] *)
Definition tryCatch {A} (body : completion A) (handler : error -> completion A)
  : completion A :=
  match body with
  | Normal a => Normal a
  | Throw e => handler e
  end.

(** *** Strings: lists of UTF-16 code units *)

Definition jsstring : Type := list N.

Definition lit (s : string) : jsstring :=
  map N_of_ascii (list_ascii_of_string s).

(** The values a caller can pass where the code expects a string. *)
Inductive value : Type :=
| VString (s : jsstring)
| VNumber (n : Z)
| VNull
| VUndefined.

(** [v.replace(re, by)] where [re] is a global regular expression of one
    character class and [by] a string: on a string every matching code unit
    is replaced; [null] and [undefined] have no properties and a number has
    no method [replace], so the call throws a TypeError. *)
Definition replaceAll (matches : N -> bool) (by_ : jsstring) (s : jsstring)
  : jsstring :=
  flat_map (fun c => if matches c then by_ else [c]) s.

Definition replaceMethod (v : value) (matches : N -> bool) (by_ : jsstring)
  : completion jsstring :=
  match v with
  | VString s => Normal (replaceAll matches by_ s)
  | _ => Throw TypeError
  end.

(** The class [\s] of a regular expression without the [u] flag: White_Space
    and LineTerminator code points. *)
Definition isWhiteSpace (c : N) : bool :=
  ((9 <=? c) && (c <=? 13) || (c =? 32) || (c =? 160) || (c =? 5760)
   || (8192 <=? c) && (c <=? 8202) || (c =? 8232) || (c =? 8233)
   || (c =? 8239) || (c =? 8287) || (c =? 12288) || (c =? 65279))%N.

Definition isChar (a : ascii) (c : N) : bool := (c =? N_of_ascii a)%N.

Definition inRange (lo hi : ascii) (c : N) : bool :=
  ((N_of_ascii lo <=? c) && (c <=? N_of_ascii hi))%N.

(** [s.indexOf(c)] for a one-unit string [c]: the first position, or -1. *)
Fixpoint indexOfFrom (i : Z) (s : jsstring) (c : N) : Z :=
  match s with
  | [] => -1
  | x :: s' => if (x =? c)%N then i else indexOfFrom (i + 1) s' c
  end.
Definition indexOf (s : jsstring) (c : N) : Z := indexOfFrom 0 s c.

(** [n.toString(radix)] for an integer [n >= 0] and [2 <= radix <= 10]:
    the digits, most significant first.  [fuel] bounds the number of
    digits; [Z.log2 n + 1] is always enough. *)
Definition digitChar (d : Z) : N := (48 + Z.to_N d)%N.

Fixpoint digitsRev (fuel : nat) (radix n : Z) : jsstring :=
  match fuel with
  | O => []
  | S f =>
      if n <? radix then [digitChar n]
      else digitChar (n mod radix) :: digitsRev f radix (n / radix)
  end.

Definition toStringRadix (radix n : Z) : jsstring :=
  rev (digitsRev (S (Z.to_nat (Z.log2 n))) radix n).

(** [s.padStart(width, fill)] for a one-unit [fill]. *)
Definition padStart (width : nat) (fill : N) (s : jsstring) : jsstring :=
  repeat fill (width - length s) ++ s.

(** [parseInt(s, 2)] on a string of binary digits. *)
Definition parseInt2 (s : jsstring) : Z :=
  fold_left (fun acc c => 2 * acc + (Z.of_N c - 48)) s 0.

(** [s.substr(i, n)] *)
Definition substr (s : jsstring) (i n : nat) : jsstring :=
  firstn n (skipn i s).

(** *** Typed arrays *)

(** [a[i]] on a [Uint8Array] or an array: the element, or [undefined]
    outside the array. *)
Definition index (a : list Z) (i : Z) : option Z :=
  if i <? 0 then None else nth_error a (Z.to_nat i).

(** ToNumber followed by ToInt32 sends [undefined] to 0, so that an
    element read outside the array counts as 0 under a bitwise operator. *)
Definition num (v : option Z) : Z :=
  match v with
  | Some x => x
  | None => 0
  end.

(** Storing a number in a [Uint8Array] keeps its low 8 bits. *)
Definition toUint8 (x : Z) : Z := x mod 256.

End JS.

Import JS.

(** [new Uint8Array(n)]: [n] zero bytes. *)
Definition newUint8Array (n : nat) : list Z := repeat 0 n.

(** [target.set(source, offset)]: the bytes of [source] copied over
    [target] from position [offset].  Every call in [totp.js] has
    [offset + source.length <= target.length], where no RangeError is
    thrown. *)
Definition arraySet (target source : list Z) (offset : nat) : list Z :=
  firstn offset target ++ source
    ++ skipn (offset + length source) target.

(** [a[i] = v] on a [Uint8Array], for [i] inside the array. *)
Definition store (a : list Z) (i : nat) (v : Z) : list Z :=
  firstn i a ++ toUint8 v :: skipn (S i) a.

(** [s.trim()]: the string without its leading and trailing white space
    and line terminators, the code units of the class [\s]. *)
Fixpoint trimStart (s : jsstring) : jsstring :=
  match s with
  | [] => []
  | c :: rest => if isWhiteSpace c then trimStart rest else s
  end.

Definition trim (s : jsstring) : jsstring :=
  rev (trimStart (rev (trimStart s))).

(** ** The host environment *)

(** What the page's JavaScript engine and browser provide to [totp.js]. *)
Record Host : Type := {
  (** [String.prototype.toUpperCase], the Unicode upper-case mapping. *)
  toUpperCase : jsstring -> jsstring;
  (** [Date.now()], milliseconds since the epoch. *)
  dateNow : Z;
  (** [crypto.subtle] when [crypto] is defined and [crypto.subtle] is truthy
      (it is undefined outside secure contexts): [importKey] of a raw
      HMAC/SHA-1 key followed by [sign], which yields the signature bytes or
      rejects. *)
  cryptoSubtle : option (list Z -> list Z -> completion (list Z))
}.

(** Upper-casing of an ASCII code unit. *)
Definition upperAscii (c : N) : N :=
  if inRange "a" "z" c then (c - 32)%N else c.

Definition isAscii (c : N) : bool := (c <? 128)%N.

(** On a string of ASCII characters, [toUpperCase] maps [a]-[z] to [A]-[Z]
    and leaves every other character as it is.  Every JavaScript engine
    satisfies this; outside ASCII the mapping is left to the host. *)
Definition HostUpperAscii (h : Host) : Prop :=
  forall s, forallb isAscii s = true -> toUpperCase h s = map upperAscii s.

(** ** Class [TOTP] *)

Module TOTP.

(** The fields set by the constructor. *)
Definition timeStep : Z := 30.
Definition codeDigits : nat := 6.

(** *** [rotateLeft(n, rotateCount)] *)
Definition rotateLeft (n rotateCount : Z) : Z :=
  ushr (bor (shl n rotateCount) (ushr n (32 - rotateCount))) 0.

(** *** [sha1Simple(data)] *)

(** The pre-processing: the padded message [paddedData]. *)
Definition paddedLength (len : nat) : nat :=
  len + 1 + Z.to_nat (rem (64 - rem (Z.of_nat len + 1 + 8) 64) 64) + 8.

Definition sha1Pad (data : list Z) : list Z :=
  let msgLength := Z.of_nat (length data) * 8 in
  let paddedData := newUint8Array (paddedLength (length data)) in
  let paddedData := arraySet paddedData data 0 in
  let paddedData := store paddedData (length data) 128 in
  fold_left
    (fun pd i =>
       store pd (length pd - 8 + i)
         (band (ushr msgLength (56 - Z.of_nat i * 8)) 255))
    (seq 0 8) paddedData.

(** [w[i]] and [paddedData[i]] where a word or byte is read. *)
Definition at_ (a : list Z) (i : Z) : Z := num (index a i).

(** The sixteen 32-bit words of the chunk at byte offset [chunk]. *)
Definition chunkWords (paddedData : list Z) (chunk : Z) : list Z :=
  map (fun i =>
         let i := Z.of_nat i in
         bor (bor (bor (shl (at_ paddedData (chunk + i * 4)) 24)
                       (shl (at_ paddedData (chunk + i * 4 + 1)) 16))
                  (shl (at_ paddedData (chunk + i * 4 + 2)) 8))
             (at_ paddedData (chunk + i * 4 + 3)))
      (seq 0 16).

(** The extension to eighty words. *)
Definition extendWords (w16 : list Z) : list Z :=
  fold_left
    (fun w i =>
       let i := Z.of_nat i in
       w ++ [rotateLeft
               (bxor (bxor (bxor (at_ w (i - 3)) (at_ w (i - 8)))
                           (at_ w (i - 14)))
                     (at_ w (i - 16))) 1])
    (seq 16 64) w16.

(** The five working variables or the five hash values. *)
Record state : Type := State { s0 : Z; s1 : Z; s2 : Z; s3 : Z; s4 : Z }.

(** One iteration of the main loop. *)
Definition round (w : list Z) (st : state) (i : nat) : state :=
  let '(State a b c d e) := st in
  let i := Z.of_nat i in
  let '(f, k) :=
    if i <? 20 then (bor (band b c) (band (bnot b) d), 0x5A827999)
    else if i <? 40 then (bxor (bxor b c) d, 0x6ED9EBA1)
    else if i <? 60 then
      (bor (bor (band b c) (band b d)) (band c d), 0x8F1BBCDC)
    else (bxor (bxor b c) d, 0xCA62C1D6) in
  let temp := ushr (rotateLeft a 5 + f + e + k + at_ w i) 0 in
  State temp a (rotateLeft b 30) c d.

(** The body of the loop over the 512-bit chunks. *)
Definition processChunk (paddedData : list Z) (h : state) (chunk : Z)
  : state :=
  let w := extendWords (chunkWords paddedData chunk) in
  let '(State a b c d e) := fold_left (round w) (seq 0 80) h in
  State (ushr (s0 h + a) 0) (ushr (s1 h + b) 0) (ushr (s2 h + c) 0)
        (ushr (s3 h + d) 0) (ushr (s4 h + e) 0).

Definition initialHash : state :=
  State 0x67452301 0xEFCDAB89 0x98BADCFE 0x10325476 0xC3D2E1F0.

(** [for (chunk = 0; chunk < paddedData.length; chunk += 64)] *)
Definition chunkOffsets (len : nat) : list Z :=
  map (fun k => Z.of_nat k * 64) (seq 0 ((len + 63) / 64)).

(** The conversion of the hash values to twenty bytes. *)
Definition hashBytes (h : state) : list Z :=
  let hashes := [s0 h; s1 h; s2 h; s3 h; s4 h] in
  flat_map
    (fun i =>
       map (fun j =>
              toUint8 (band (ushr (at_ hashes (Z.of_nat i))
                                  (24 - Z.of_nat j * 8)) 255))
           (seq 0 4))
    (seq 0 5).

Definition sha1Simple (data : list Z) : list Z :=
  let paddedData := sha1Pad data in
  hashBytes
    (fold_left (processChunk paddedData)
               (chunkOffsets (length paddedData)) initialHash).

(** *** [hmacSha1Simple(key, message)] *)
Definition blockSize : nat := 64.

Definition xorPad (paddedKey : list Z) (c : Z) : list Z :=
  map (fun i => toUint8 (bxor (at_ paddedKey (Z.of_nat i)) c))
      (seq 0 blockSize).

Definition hmacSha1Simple (key message : list Z) : list Z :=
  let key := if (blockSize <? length key)%nat then sha1Simple key else key in
  let paddedKey := arraySet (newUint8Array blockSize) key 0 in
  let innerPad := xorPad paddedKey 0x36 in
  let outerPad := xorPad paddedKey 0x5c in
  let innerData :=
    arraySet
      (arraySet (newUint8Array (length innerPad + length message)) innerPad 0)
      message (length innerPad) in
  let innerHash := sha1Simple innerData in
  let outerData :=
    arraySet
      (arraySet (newUint8Array (length outerPad + length innerHash)) outerPad 0)
      innerHash (length outerPad) in
  sha1Simple outerData.

(** *** [hmacSha1(key, message)]: Web Crypto first, else the fallback *)
Definition hmacSha1 (h : Host) (key message : list Z) : list Z :=
  match cryptoSubtle h with
  | Some sign =>
      match sign key message with
      | Normal signature => signature
      | Throw _ => hmacSha1Simple key message
      end
  | None => hmacSha1Simple key message
  end.

(** *** [base32Decode(encoded)] *)
Definition base32Chars : jsstring := lit "ABCDEFGHIJKLMNOPQRSTUVWXYZ234567".

(** The first loop: every character to its five binary digits, appended to
    [bits]; a character that is not in [base32Chars] throws. *)
Fixpoint bitsLoop (encoded bits : jsstring) : completion jsstring :=
  match encoded with
  | [] => Normal bits
  | char :: rest =>
      let index := indexOf base32Chars char in
      if index =? -1 then Throw (InvalidBase32Character char)
      else bitsLoop rest
             (bits ++ padStart 5 (N_of_ascii "0") (toStringRadix 2 index))
  end.

(** The second loop, [for (i = 0; i + 8 <= bits.length; i += 8)], run for
    at most [fuel] iterations; [bits.length] iterations always suffice. *)
Fixpoint bytesLoop (fuel : nat) (bits : jsstring) (i : nat) : list Z :=
  match fuel with
  | O => []
  | S f =>
      if (i + 8 <=? length bits)%nat
      then parseInt2 (substr bits i 8) :: bytesLoop f bits (i + 8)
      else []
  end.

Definition base32Decode (h : Host) (encoded : jsstring)
  : completion (list Z) :=
  let encoded :=
    toUpperCase h (replaceAll (isChar "=") [] encoded) in
  bind (bitsLoop encoded [])
       (fun bits => Normal (bytesLoop (length bits) bits 0)).

(** *** [intToBytes(int)] *)
Fixpoint intToBytesLoop (n : nat) (int : Z) (bytes : list Z) : list Z :=
  match n with
  | O => bytes
  | S n' =>
      intToBytesLoop n' (floorDiv int 256) (toUint8 (band int 255) :: bytes)
  end.

Definition intToBytes (int : Z) : list Z := intToBytesLoop 8 int [].

(** *** [dynamicTruncate(hmac)] *)
Definition truncateOffset (hmac : list Z) : Z :=
  band (at_ hmac (Z.of_nat (length hmac) - 1)) 0x0F.

Definition dynamicTruncate (hmac : list Z) : Z :=
  let offset := truncateOffset hmac in
  let code :=
    bor (bor (bor (shl (band (at_ hmac offset) 0x7F) 24)
                  (shl (band (at_ hmac (offset + 1)) 0xFF) 16))
             (shl (band (at_ hmac (offset + 2)) 0xFF) 8))
        (band (at_ hmac (offset + 3)) 0xFF) in
  rem code (10 ^ Z.of_nat codeDigits).

(** The same function with every element read checked: [None] as soon as
    one index lies outside [hmac]. *)
Definition dynamicTruncateChecked (hmac : list Z) : option Z :=
  match index hmac (Z.of_nat (length hmac) - 1) with
  | None => None
  | Some last =>
      let offset := band last 0x0F in
      match index hmac offset, index hmac (offset + 1),
            index hmac (offset + 2), index hmac (offset + 3) with
      | Some b0, Some b1, Some b2, Some b3 =>
          Some (rem (bor (bor (bor (shl (band b0 0x7F) 24)
                                   (shl (band b1 0xFF) 16))
                              (shl (band b2 0xFF) 8))
                         (band b3 0xFF))
                    (10 ^ Z.of_nat codeDigits))
      | _, _, _, _ => None
      end
  end.

(** The indices at which [dynamicTruncate] reads [hmac]. *)
Definition truncateReads (hmac : list Z) : list Z :=
  let offset := truncateOffset hmac in
  [Z.of_nat (length hmac) - 1; offset; offset + 1; offset + 2; offset + 3].

(** *** The cleaning of the secret, as [generate] and [validateSecret] both
    write it: whitespace and dashes removed, upper-cased, then [0] replaced
    by [O] and [1] by [I]. *)
Definition cleanSecret (h : Host) (secret : value) : completion jsstring :=
  bind (replaceMethod secret
          (fun c => isWhiteSpace c || isChar "-" c) [])
       (fun stripped =>
          let cleaned := toUpperCase h stripped in
          Normal (replaceAll (isChar "1") (lit "I")
                    (replaceAll (isChar "0") (lit "O") cleaned))).

(** *** [generate(secret, time = null)] *)
Definition generateBody (h : Host) (secret : value) (time : option Z)
  : completion jsstring :=
  let time :=
    match time with
    | None => floorDiv (dateNow h) 1000
    | Some t => t
    end in
  let counter := floorDiv time timeStep in
  bind (cleanSecret h secret) (fun cleanSecret =>
  bind (base32Decode h cleanSecret) (fun key =>
  let hmac := hmacSha1 h key (intToBytes counter) in
  let code := dynamicTruncate hmac in
  let result := padStart codeDigits (N_of_ascii "0") (toStringRadix 10 code) in
  Normal result)).

Definition generate (h : Host) (secret : value) (time : option Z)
  : completion jsstring :=
  tryCatch (generateBody h secret time) (fun _ => Normal (lit "ERROR")).

(** *** [getRemainingSeconds()]
    The method declares no parameter: the arguments of a call, [args], are
    not read. *)
Definition getRemainingSeconds (h : Host) (args : list Z) : Z :=
  let now := floorDiv (dateNow h) 1000 in
  timeStep - rem now timeStep.

(** *** [validateSecret(secret)] *)

(** [/^[A-Z2-7=]+$/.test(s)] *)
Definition base32Class (c : N) : bool :=
  inRange "A" "Z" c || inRange "2" "7" c || isChar "=" c.

Definition regexTest (s : jsstring) : bool :=
  match s with
  | [] => false
  | _ => forallb base32Class s
  end.

Definition validateSecret (h : Host) (secret : value) : completion bool :=
  tryCatch
    (bind (cleanSecret h secret) (fun cleaned =>
       Normal (regexTest cleaned && (16 <=? length cleaned)%nat)))
    (fun _ => Normal false).


End TOTP.

(** ** Hosts used in the examples *)

(** A page outside a secure context: no [crypto.subtle].  Its [toUpperCase]
    is exact on ASCII strings, the only ones the examples pass. *)
Definition plainHost (now : Z) : Host :=
  {| toUpperCase := map upperAscii; dateNow := now; cryptoSubtle := None |}.

(** A secure context whose [crypto.subtle] signs with [sign]. *)
Definition secureHost (now : Z) (sign : list Z -> list Z -> list Z) : Host :=
  {| toUpperCase := map upperAscii; dateNow := now;
     cryptoSubtle := Some (fun key message => Normal (sign key message)) |}.

(** ** The reference algorithms, as sections 4.2 to 4.6 of the specification
    and the RFCs they cite describe them

    These definitions are written from the specification's words, not from
    [totp.js]; the methods of [TOTP] are compared with them. *)

Module RFC.

Definition word (x : Z) : Z := x mod 2 ^ 32.

Definition rotl (x n : Z) : Z :=
  word (Z.lor (Z.shiftl x n) (Z.shiftr x (32 - n))).

(** A number as [n] big-endian bytes. *)
Fixpoint bigEndian (n : nat) (x : Z) : list Z :=
  match n with
  | O => []
  | S n' => (x / 256 ^ Z.of_nat n') mod 256 :: bigEndian n' x
  end.

Definition fromBigEndian (bytes : list Z) : Z :=
  fold_left (fun acc b => acc * 256 + b) bytes 0.

(** Append [0x80], zero-pad to 56 modulo 64, append the bit length as a
    64-bit big-endian integer. *)
Definition pad (message : list Z) : list Z :=
  let len := Z.of_nat (length message) in
  message ++ [0x80] ++ repeat 0 (Z.to_nat ((55 - len) mod 64))
    ++ bigEndian 8 (8 * len).

(** The message as 32-bit big-endian words. *)
Fixpoint toWords (bytes : list Z) : list Z :=
  match bytes with
  | b0 :: b1 :: b2 :: b3 :: rest =>
      fromBigEndian [b0; b1; b2; b3] :: toWords rest
  | _ => []
  end.

(** [w[i] = rotl(w[i-3] xor w[i-8] xor w[i-14] xor w[i-16], 1)], the
    schedule kept newest word first. *)
Fixpoint schedule (n : nat) (recent : list Z) : list Z :=
  match n with
  | O => recent
  | S n' =>
      let w k := nth k recent 0 in
      schedule n'
        (rotl (Z.lxor (Z.lxor (Z.lxor (w 2%nat) (w 7%nat)) (w 13%nat))
                      (w 15%nat)) 1 :: recent)
  end.

Definition f (t : nat) (b c d : Z) : Z :=
  if (t <? 20)%nat then Z.lor (Z.land b c) (Z.land (word (Z.lnot b)) d)
  else if (t <? 40)%nat then Z.lxor (Z.lxor b c) d
  else if (t <? 60)%nat then
    Z.lor (Z.lor (Z.land b c) (Z.land b d)) (Z.land c d)
  else Z.lxor (Z.lxor b c) d.

Definition k (t : nat) : Z :=
  if (t <? 20)%nat then 0x5A827999
  else if (t <? 40)%nat then 0x6ED9EBA1
  else if (t <? 60)%nat then 0x8F1BBCDC
  else 0xCA62C1D6.

Definition hash : Type := (Z * Z * Z * Z * Z)%type.

Fixpoint rounds (t : nat) (w : list Z) (v : hash) : hash :=
  match w with
  | [] => v
  | wt :: w' =>
      let '(a, b, c, d, e) := v in
      rounds (S t) w'
        (word (rotl a 5 + f t b c d + e + k t + wt), a, rotl b 30, c, d)
  end.

Definition compress (h : hash) (block : list Z) : hash :=
  let w := rev (schedule 64 (rev block)) in
  let '(h0, h1, h2, h3, h4) := h in
  let '(a, b, c, d, e) := rounds 0 w h in
  (word (h0 + a), word (h1 + b), word (h2 + c), word (h3 + d), word (h4 + e)).

(** The blocks of sixteen words each. *)
Fixpoint blocks (n : nat) (words : list Z) : list (list Z) :=
  match n with
  | O => []
  | S n' => firstn 16 words :: blocks n' (skipn 16 words)
  end.

(** The digest of a padded message: the blocks compressed in turn, the
    five state words written big-endian. *)
Definition digest (padded : list Z) : list Z :=
  let words := toWords padded in
  let '(h0, h1, h2, h3, h4) :=
    fold_left compress (blocks (length words / 16) words)
      (0x67452301, 0xEFCDAB89, 0x98BADCFE, 0x10325476, 0xC3D2E1F0) in
  flat_map (bigEndian 4) [h0; h1; h2; h3; h4].

Definition sha1 (message : list Z) : list Z := digest (pad message).

(** RFC 2104 over a hash function with a block of 64 bytes. *)
Definition hmacWith (hash : list Z -> list Z) (key message : list Z)
  : list Z :=
  let key := if (64 <? length key)%nat then hash key else key in
  let padded := key ++ repeat 0 (64 - length key) in
  let ipad := map (fun b => Z.lxor b 0x36) padded in
  let opad := map (fun b => Z.lxor b 0x5c) padded in
  hash (opad ++ hash (ipad ++ message)).

(** HMAC-SHA1. *)
Definition hmac (key message : list Z) : list Z := hmacWith sha1 key message.

(** RFC 4226, section 5.3. *)
Definition truncate (digest : list Z) (digits : nat) : Z :=
  let offset := Z.to_nat (Z.land (nth 19 digest 0) 0x0F) in
  let value :=
    fromBigEndian
      [Z.land (nth offset digest 0) 0x7F; nth (offset + 1) digest 0;
       nth (offset + 2) digest 0; nth (offset + 3) digest 0] in
  value mod 10 ^ Z.of_nat digits.

(** The decimal digits of [x], exactly [digits] of them. *)
Fixpoint decimal (digits : nat) (x : Z) : jsstring :=
  match digits with
  | O => []
  | S n => decimal n (x / 10) ++ [(48 + Z.to_N (x mod 10))%N]
  end.

(** RFC 6238 with a step of 30 seconds and six digits, over a message
    authentication code [mac]; with HMAC-SHA1. *)
Definition totpWith (mac : list Z -> list Z -> list Z) (key : list Z)
    (time : Z) : jsstring :=
  decimal 6 (truncate (mac key (bigEndian 8 (time / 30))) 6).

Definition totp (key : list Z) (time : Z) : jsstring :=
  totpWith hmac key time.

(** Base32 decoding as section 4.2 words it: the 5-bit index of each
    character, most significant bit first, all concatenated, then cut into
    groups of 8 bits from the front, a shorter last group dropped. *)
Definition fiveBits (idx : Z) : list bool :=
  map (Z.testbit idx) [4; 3; 2; 1; 0].

Definition bitsValue (bits : list bool) : Z :=
  fold_left (fun acc (b : bool) => 2 * acc + (if b then 1 else 0)) bits 0.

Fixpoint groupsOfEight (bits : list bool) : list Z :=
  match bits with
  | b0 :: b1 :: b2 :: b3 :: b4 :: b5 :: b6 :: b7 :: rest =>
      bitsValue [b0; b1; b2; b3; b4; b5; b6; b7] :: groupsOfEight rest
  | _ => []
  end.

(** The alphabet [A]-[Z], [2]-[7] and the index of a character in it. *)
Definition inAlphabet (c : N) : bool :=
  inRange "A" "Z" c || inRange "2" "7" c.

Definition alphabetIndex (c : N) : Z :=
  if inRange "A" "Z" c then Z.of_N c - 65 else Z.of_N c - 24.

Definition base32Bytes (chars : jsstring) : list Z :=
  groupsOfEight (flat_map (fun c => fiveBits (alphabetIndex c)) chars).

End RFC.

(** A string of exactly six ASCII decimal digits: [^[0-9]{6}$]. *)
Definition isDigit (c : N) : bool := inRange "0" "9" c.

Definition sixDigits (s : jsstring) : bool :=
  (length s =? 6)%nat && forallb isDigit s.

(** The cleaned secret of a string, the normalized form of section 3. *)
Definition normalized (h : Host) (s : jsstring) : jsstring :=
  replaceAll (isChar "1") (lit "I")
    (replaceAll (isChar "0") (lit "O")
       (toUpperCase h
          (replaceAll (fun c => isWhiteSpace c || isChar "-" c) [] s))).

(** The binary digit [0] or [1] as a code unit. *)
Definition bitChar (b : bool) : N := if b then 49%N else 48%N.

(** The five hash values of [sha1Simple] as the state of the reference,
    and the range they stay in. *)
Definition stateHash (st : TOTP.state) : RFC.hash :=
  (TOTP.s0 st, TOTP.s1 st, TOTP.s2 st, TOTP.s3 st, TOTP.s4 st).

Definition uint32State (st : TOTP.state) : Prop :=
  (0 <= TOTP.s0 st < 2 ^ 32) /\ (0 <= TOTP.s1 st < 2 ^ 32)
  /\ (0 <= TOTP.s2 st < 2 ^ 32) /\ (0 <= TOTP.s3 st < 2 ^ 32)
  /\ (0 <= TOTP.s4 st < 2 ^ 32).

Import TOTP.

(** The class [[\s\-]] that the cleaning of a secret removes, and what the
    cleaning makes of one ASCII character: nothing of a separator, else the
    upper-case character with [0] turned into [O] and [1] into [I]. *)
Definition isSeparator (c : N) : bool := isWhiteSpace c || isChar "-" c.

Definition normalizeChar (c : N) : jsstring :=
  if isSeparator c then []
  else
    let u := upperAscii c in
    [if isChar "0" u then N_of_ascii "O"
     else if isChar "1" u then N_of_ascii "I" else u].

(** The host [h] at the moment its clock reads [now]. *)
Definition hostAt (h : Host) (now : Z) : Host :=
  {| toUpperCase := toUpperCase h; dateNow := now;
     cryptoSubtle := cryptoSubtle h |}.

(** ** Class [ZKSAuth], the application in front of [TOTP]

    The page is modelled by what the methods do to it, in order: the
    notifications shown, the codes displayed, the countdown written, the
    style of the input field and of the button, the intervals set and
    cleared.  The text, bar width and colour [updateTimer] writes are
    functions of the remaining seconds, which the event records; the CSS
    animations and the removal of a notification after three seconds are
    left out, and the elements the methods look up are taken to exist.
    [Date.now()] returns the successive readings of a clock.  A listener
    or a callback runs to its end before the next event is handled: the
    promises it awaits are taken to settle with no other event in
    between, as they do where [generate] takes the fallback path.  The
    handle of an interval is a fresh number, in the order of the calls of
    [setInterval]; the timeouts, which draw on the same numbers in a
    browser, are not counted. *)

Module ZKSAuth.

(** The two callbacks given to [setInterval]. *)
Inductive callback : Type :=
| UpdateTimer
| AutoRefresh.

Inductive effect : Type :=
| ErrorShown (message : jsstring)
| CodeDisplayed (code : jsstring)
| TimerUpdated (remaining : Z)
| InputStyled (borderColor : jsstring) (disabled : bool) (opacity : jsstring)
| IntervalSet (handle : positive) (cb : callback)
| IntervalCleared (handle : positive).

(** The browser: the clock ([clock n] is the reading of the [n]-th call of
    [Date.now()]), the handle the next [setInterval] returns (handles are
    positive integers, hence truthy), and the effects so far. *)
Record world : Type := {
  clock : nat -> Z;
  reads : nat;
  nextHandle : positive;
  trace : list effect
}.

(** The fields of a [ZKSAuth] object; [None] is [null]. *)
Record instance : Type := {
  currentSecret : jsstring;
  timerInterval : option positive;
  codeGenerationInterval : option positive
}.

(** The object the constructor builds. *)
Definition initial : instance :=
  {| currentSecret := []; timerInterval := None;
     codeGenerationInterval := None |}.

(** The page when it has just been loaded. *)
Definition loaded (clock : nat -> Z) : world :=
  {| clock := clock; reads := 0; nextHandle := 1; trace := [] |}.

Definition emit (e : effect) (w : world) : world :=
  {| clock := clock w; reads := reads w; nextHandle := nextHandle w;
     trace := trace w ++ [e] |}.

(** One call of [Date.now()]. *)
Definition readClock (w : world) : Z * world :=
  (clock w (reads w),
   {| clock := clock w; reads := S (reads w); nextHandle := nextHandle w;
      trace := trace w |}).

Definition setInterval (cb : callback) (w : world) : positive * world :=
  (nextHandle w,
   {| clock := clock w; reads := reads w;
      nextHandle := Pos.succ (nextHandle w);
      trace := trace w ++ [IntervalSet (nextHandle w) cb] |}).

Definition clearInterval (handle : positive) (w : world) : world :=
  emit (IntervalCleared handle) w.

Section Methods.

(** The engine and the crypto provider of the page; its clock is [world]'s. *)
Variable h : Host.

(** [showError(message)] *)
Definition showError (message : jsstring) (w : world) : world :=
  emit (ErrorShown message) w.

(** [displayCode(code)] *)
Definition displayCode (code : jsstring) (w : world) : world :=
  emit (CodeDisplayed code) w.

(** [generateTOTPCode(secret)]: [generate] without a time, which reads the
    clock once. *)
Definition generateTOTPCode (secret : jsstring) (w : world)
  : completion jsstring * world :=
  let '(now, w) := readClock w in
  (generate (hostAt h now) (VString secret) None, w).

(** [updateTimer()] *)
Definition updateTimer (w : world) : world :=
  let '(now, w) := readClock w in
  let remaining := getRemainingSeconds (hostAt h now) [] in
  emit (TimerUpdated remaining) w.

(** [startTimer()] *)
Definition startTimer (a : instance) (w : world) : instance * world :=
  let w := updateTimer w in
  let '(handle, w) := setInterval UpdateTimer w in
  ({| currentSecret := currentSecret a; timerInterval := Some handle;
      codeGenerationInterval := codeGenerationInterval a |}, w).

(** [startAutoRefresh()] *)
Definition startAutoRefresh (a : instance) (w : world) : instance * world :=
  let '(handle, w) := setInterval AutoRefresh w in
  ({| currentSecret := currentSecret a; timerInterval := timerInterval a;
      codeGenerationInterval := Some handle |}, w).

(** The callback of [startAutoRefresh], run every second. *)
Definition autoRefreshTick (a : instance) (w : world) : world * completion unit :=
  let '(now, w) := readClock w in
  let remaining := getRemainingSeconds (hostAt h now) [] in
  if (remaining <=? 1)
     && negb (match currentSecret a with [] => true | _ => false end)
  then
    let '(newCode, w) := generateTOTPCode (currentSecret a) w in
    match newCode with
    | Normal newCode => (displayCode newCode w, Normal tt)
    | Throw e => (w, Throw e)
    end
  else (w, Normal tt).

(** [stopTimers()] *)
Definition stopTimers (a : instance) (w : world) : instance * world :=
  let '(a, w) :=
    match timerInterval a with
    | Some handle =>
        ({| currentSecret := currentSecret a; timerInterval := None;
            codeGenerationInterval := codeGenerationInterval a |},
         clearInterval handle w)
    | None => (a, w)
    end in
  match codeGenerationInterval a with
  | Some handle =>
      ({| currentSecret := currentSecret a; timerInterval := timerInterval a;
          codeGenerationInterval := None |},
       clearInterval handle w)
  | None => (a, w)
  end.

(** [generateCode(secret)] *)
Definition generateCode (a : instance) (secret : jsstring) (w : world)
  : instance * world * completion unit :=
  match secret with
  | [] => (a, showError (lit "Please enter a secret key") w, Normal tt)
  | _ =>
      match validateSecret h (VString secret) with
      | Throw e => (a, w, Throw e)
      | Normal false =>
          (a,
           showError
             (lit "Invalid secret key format. Please enter a valid base32 encoded key.")
             w,
           Normal tt)
      | Normal true =>
          let a := {| currentSecret := secret;
                      timerInterval := timerInterval a;
                      codeGenerationInterval := codeGenerationInterval a |} in
          let '(code, w) := generateTOTPCode secret w in
          match code with
          | Normal code =>
              let w := displayCode code w in
              let '(a, w) := startTimer a w in
              let '(a, w) := startAutoRefresh a w in
              (a, w, Normal tt)
          | Throw _ =>
              (a,
               showError
                 (lit "Error generating code. Please check your secret key.")
                 w,
               Normal tt)
          end
      end
  end.

(** [validateSecretInput(secret)] *)
Definition validateSecretInput (secret : jsstring) (w : world)
  : world * completion unit :=
  match validateSecret h (VString secret) with
  | Throw e => (w, Throw e)
  | Normal isValid =>
      if (length secret =? 0)%nat then
        (emit (InputStyled (lit "rgba(187, 134, 252, 0.3)") false (lit "1")) w,
         Normal tt)
      else if isValid then
        (emit (InputStyled (lit "#4caf50") false (lit "1")) w, Normal tt)
      else
        (emit (InputStyled (lit "#f44336") true (lit "0.6")) w, Normal tt)
  end.

(** The listeners [bindEvents] installs: a click on the button and the
    Enter key in the field call [generateCode] on the trimmed value, an
    input event calls [validateSecretInput] on the value. *)
Definition onGenerate (a : instance) (value : jsstring) (w : world)
  : instance * world * completion unit :=
  generateCode a (trim value) w.

Definition onInput (value : jsstring) (w : world) : world * completion unit :=
  validateSecretInput value w.

(** What can happen to the page, one event at a time: the button or the
    Enter key with the value of the field, an input event, a tick of either
    interval, the unloading of the page ([stopTimers]).  Every sequence is
    allowed, also ticks of intervals that are not set: what holds of all
    sequences holds of those a browser produces. *)
Inductive action : Type :=
| Generate (value : jsstring)
| Input (value : jsstring)
| TimerTick
| RefreshTick
| Stop.

Definition step (st : instance * world) (act : action) : instance * world :=
  let '(a, w) := st in
  match act with
  | Generate value =>
      let '(a, w, _) := onGenerate a value w in (a, w)
  | Input value => (a, fst (onInput value w))
  | TimerTick => (a, updateTimer w)
  | RefreshTick => (a, fst (autoRefreshTick a w))
  | Stop => stopTimers a w
  end.

Definition run (acts : list action) (st : instance * world) : instance * world :=
  fold_left step acts st.

End Methods.

(** The intervals that are set and not cleared, oldest first. *)
Definition activeIntervals (tr : list effect) : list positive :=
  fold_left
    (fun active e =>
       match e with
       | IntervalSet handle _ => active ++ [handle]
       | IntervalCleared handle =>
           filter (fun x => negb (Pos.eqb x handle)) active
       | _ => active
       end)
    tr [].

(** An effect other than the display of something that is not a code of
    six digits and other than the message of the catch clause of
    [generateCode]. *)
Definition expected (e : effect) : Prop :=
  match e with
  | CodeDisplayed code => sixDigits code = true
  | ErrorShown message =>
      message <> lit "Error generating code. Please check your secret key."
  | _ => True
  end.

(** The codes and the error messages shown, in order. *)
Definition codesDisplayed (tr : list effect) : list jsstring :=
  flat_map (fun e => match e with CodeDisplayed c => [c] | _ => [] end) tr.

Definition errorsShown (tr : list effect) : list jsstring :=
  flat_map (fun e => match e with ErrorShown m => [m] | _ => [] end) tr.

End ZKSAuth.

(** * Known answers of the reference algorithms *)

(** FIPS 180 / RFC 3174: SHA-1 of ["abc"]. *)
Example rfc_sha1_abc :
  RFC.sha1 [97; 98; 99]
  = [0xa9; 0x99; 0x3e; 0x36; 0x47; 0x06; 0x81; 0x6a; 0xba; 0x3e;
     0x25; 0x71; 0x78; 0x50; 0xc2; 0x6c; 0x9c; 0xd0; 0xd8; 0x9d].
Proof. vm_compute. reflexivity. Qed.

(** RFC 2202, test case 1 of HMAC-SHA-1. *)
Example rfc_hmac_case1 :
  RFC.hmac (repeat 0x0b 20) (map Z.of_N (lit "Hi There"))
  = [0xb6; 0x17; 0x31; 0x86; 0x55; 0x05; 0x72; 0x64; 0xe2; 0x8b;
     0xc0; 0xb6; 0xfb; 0x37; 0x8c; 0x8e; 0xf1; 0x46; 0xbe; 0x00].
Proof. vm_compute. reflexivity. Qed.

(** RFC 6238, appendix B: at time 59 the SHA-1 code is 94287082, whose
    last six digits are 287082. *)
Example rfc_totp_59 :
  RFC.totp (map Z.of_N (lit "12345678901234567890")) 59 = lit "287082".
Proof. vm_compute. reflexivity. Qed.

(** * The SHA-1 engine *)

(** C7: [sha1Simple] of the empty byte sequence is the digest
    da39a3ee5e6b4b0d3255bfef95601890afd80709. *)
Theorem sha1Simple_empty :
  sha1Simple []
  = [0xda; 0x39; 0xa3; 0xee; 0x5e; 0x6b; 0x4b; 0x0d; 0x32; 0x55;
     0xbf; 0xef; 0x95; 0x60; 0x18; 0x90; 0xaf; 0xd8; 0x07; 0x09].
Proof. vm_compute. reflexivity. Qed.

(** C2 fails on the code: for the one-byte message [0x61] the last eight
    bytes of the padded message are 00 00 00 08 00 00 00 08, not the 64-bit
    big-endian length 00 00 00 00 00 00 00 08.  The shift counts 56, 48, 40
    and 32 of [>>>] are taken modulo 32, so the high word of the length field
    repeats the low word. *)
Theorem sha1Pad_length_field_one_byte :
  skipn 56 (sha1Pad [0x61]) = [0; 0; 0; 8; 0; 0; 0; 8]
  /\ length (sha1Pad [0x61]) = 64%nat
  /\ firstn 56 (sha1Pad [0x61]) = 0x61 :: 0x80 :: repeat 0 54
  /\ skipn 56 (RFC.pad [0x61]) = [0; 0; 0; 0; 0; 0; 0; 8]
  /\ firstn 4 (skipn 56 (sha1Pad [0x61])) <> [0; 0; 0; 0].
Proof. vm_compute. repeat split; discriminate. Qed.

(** The digest of a non-empty message is off accordingly: ["abc"].  It is
    the reference digest of the message as [sha1Pad] pads it, so that the
    compression of the chunks is not at fault. *)
Example sha1Simple_abc :
  sha1Simple [97; 98; 99]
  = [0x71; 0x34; 0x7b; 0xf0; 0x23; 0x58; 0x9b; 0xd4; 0x23; 0xb0;
     0x78; 0xe0; 0xda; 0x15; 0x80; 0x62; 0x7a; 0xe4; 0x81; 0x99]
  /\ sha1Simple [97; 98; 99] <> RFC.sha1 [97; 98; 99]
  /\ sha1Simple [97; 98; 99] = RFC.digest (sha1Pad [97; 98; 99]).
Proof. vm_compute. repeat split; discriminate. Qed.

(** The same on a message of three chunks. *)
Example sha1Simple_three_chunks :
  sha1Simple (repeat 0x5a 130) = RFC.digest (sha1Pad (repeat 0x5a 130))
  /\ sha1Simple (repeat 0x5a 130) <> RFC.sha1 (repeat 0x5a 130).
Proof. vm_compute. split; [reflexivity | discriminate]. Qed.

(** * The HMAC engine *)

(** C4 fails on the code: on the key and counter of the known-answer test,
    on an empty key and an empty message, on a key of exactly 64 bytes and
    on a key of 65 bytes the fallback engine [hmacSha1Simple] differs from
    RFC 2104 HMAC-SHA1, which a native primitive computes. *)
Theorem hmacSha1Simple_differs_from_rfc2104 :
  hmacSha1Simple [72; 101; 108; 108; 111; 33; 222; 173; 190; 239]
    (intToBytes 1)
  <> RFC.hmac [72; 101; 108; 108; 111; 33; 222; 173; 190; 239]
       (RFC.bigEndian 8 1)
  /\ hmacSha1Simple [] []
     = [0xe0; 0x65; 0x85; 0xba; 0xe5; 0x85; 0x46; 0xd9; 0x0b; 0x2c;
        0x7b; 0x92; 0x0e; 0x99; 0x35; 0x72; 0x62; 0xed; 0x6d; 0x0c]
  /\ RFC.hmac [] []
     = [0xfb; 0xdb; 0x1d; 0x1b; 0x18; 0xaa; 0x6c; 0x08; 0x32; 0x4b;
        0x7d; 0x64; 0xb7; 0x1f; 0xb7; 0x63; 0x70; 0x69; 0x0e; 0x1d]
  /\ hmacSha1Simple (repeat 1 64) [2] <> RFC.hmac (repeat 1 64) [2]
  /\ hmacSha1Simple (repeat 1 65) [2] <> RFC.hmac (repeat 1 65) [2]
  /\ hmacSha1Simple [1] [] <> RFC.hmac [1] [].
Proof. vm_compute. repeat split; discriminate. Qed.

(** Where [crypto.subtle] signs, [hmacSha1] returns its signature. *)
Lemma hmacSha1_native (now : Z) (sign : list Z -> list Z -> list Z)
    (key message : list Z) :
  hmacSha1 (secureHost now sign) key message = sign key message.
Proof. reflexivity. Qed.


(** * Code generation: the known answer *)

(** C1 fails on the code where the fallback engine runs: with no
    [crypto.subtle], [generate("JBSWY3DPEHPK3PXP", 59)] is "864780", while
    RFC 6238 TOTP-SHA1 with a 30-second step and six digits gives "996554"
    for the key that secret decodes to. *)
Theorem generate_known_answer_fallback (now : Z) :
  generate (plainHost now) (VString (lit "JBSWY3DPEHPK3PXP")) (Some 59)
  = Normal (lit "864780")
  /\ base32Decode (plainHost now) (lit "JBSWY3DPEHPK3PXP")
     = Normal [72; 101; 108; 108; 111; 33; 222; 173; 190; 239]
  /\ RFC.totp [72; 101; 108; 108; 111; 33; 222; 173; 190; 239] 59
     = lit "996554".
Proof. vm_compute. repeat split. Qed.

(** With a native HMAC-SHA1 the same call gives the RFC 6238 code. *)
Lemma generate_known_answer_native (now : Z) :
  generate (secureHost now RFC.hmac) (VString (lit "JBSWY3DPEHPK3PXP"))
    (Some 59)
  = Normal (RFC.totp [72; 101; 108; 108; 111; 33; 222; 173; 190; 239] 59).
Proof. vm_compute. reflexivity. Qed.

(** * The countdown *)

(** C6 fails on the code as stated: [getRemainingSeconds] declares no
    parameter, so a timestamp passed to it is not read.  With the clock at
    29 seconds the call [getRemainingSeconds(0)] returns 1, not
    [30 - (0 mod 30) = 30]. *)
Lemma getRemainingSeconds_ignores_argument :
  ~ (forall (h : Host) (t : Z),
       0 <= t -> getRemainingSeconds h [t] = 30 - t mod 30).
Proof.
  intros claim.
  pose proof (claim (plainHost 29000) 0 ltac:(lia)) as H.
  vm_compute in H. discriminate H.
Qed.

(** C6, amended: whatever arguments it is called with, [getRemainingSeconds]
    returns [30 - (now mod 30)] for [now] the clock in whole seconds; this is
    an integer between 1 and 30, 30 when [now mod 30 = 0] and 1 when
    [now mod 30 = 29]. *)
Theorem getRemainingSeconds_clock (h : Host) (args : list Z) :
  0 <= dateNow h ->
  let now := dateNow h / 1000 in
  getRemainingSeconds h args = 30 - now mod 30
  /\ 1 <= getRemainingSeconds h args <= 30
  /\ (now mod 30 = 0 -> getRemainingSeconds h args = 30)
  /\ (now mod 30 = 29 -> getRemainingSeconds h args = 1).
Proof.
  intros Hnow now.
  assert (Hsec : 0 <= now) by (apply Z.div_pos; lia).
  assert (Heq : getRemainingSeconds h args = 30 - now mod 30).
  { unfold getRemainingSeconds, rem, floorDiv, timeStep.
    fold now. rewrite Z.rem_mod_nonneg by lia. reflexivity. }
  pose proof (Z.mod_pos_bound now 30 ltac:(lia)).
  repeat split; lia.
Qed.

(** The clock at 59 seconds: one second remains. *)
Lemma getRemainingSeconds_clock_witness :
  0 <= dateNow (plainHost 59000)
  /\ getRemainingSeconds (plainHost 59000) [0] = 1.
Proof.
  split; [simpl; lia |].
  pose proof (getRemainingSeconds_clock (plainHost 59000) [0]) as H.
  simpl in H.
  destruct (H ltac:(lia)) as (_ & _ & _ & H29).
  apply H29. reflexivity.
Defined.

(** * The 32-bit operators on small operands *)

Section Int32.

Lemma toInt32_small (x : Z) : 0 <= x < 2 ^ 31 -> toInt32 x = x.
Proof.
  intros Hx. unfold toInt32.
  rewrite Z.mod_small by lia. lia.
Qed.

(** [toInt32 x] differs from [x] by a multiple of [2^32]. *)
Lemma toInt32_wrap (x : Z) : exists q, toInt32 x = x + q * 2 ^ 32.
Proof.
  exists (- ((x + 2 ^ 31) / 2 ^ 32)). unfold toInt32.
  pose proof (Z.div_mod (x + 2 ^ 31) (2 ^ 32) ltac:(lia)). lia.
Qed.

(** Masking with [2^n - 1] keeps the low [n] bits of the operand. *)
Lemma band_ones (a n : Z) :
  0 <= n <= 31 -> band a (Z.ones n) = a mod 2 ^ n.
Proof.
  intros Hn. unfold band.
  assert (Hones : 0 <= Z.ones n < 2 ^ 31).
  { rewrite Z.ones_equiv.
    assert (0 < 2 ^ n) by (apply Z.pow_pos_nonneg; lia).
    assert (2 ^ n <= 2 ^ 31) by (apply Z.pow_le_mono_r; lia). lia. }
  rewrite (toInt32_small (Z.ones n)) by exact Hones.
  rewrite Z.land_ones by lia.
  destruct (toInt32_wrap a) as [q ->].
  replace (2 ^ 32) with (2 ^ (32 - n) * 2 ^ n)
    by (rewrite <- Z.pow_add_r by lia; f_equal; lia).
  rewrite Z.mul_assoc. apply Z.mod_add.
  apply Z.pow_nonzero; lia.
Qed.

Lemma band_ones_bound (a n : Z) :
  0 <= n <= 31 -> 0 <= band a (Z.ones n) < 2 ^ n.
Proof.
  intros Hn. rewrite band_ones by exact Hn.
  apply Z.mod_pos_bound. apply Z.pow_pos_nonneg; lia.
Qed.

(** A left shift that stays below [2^31] is a multiplication. *)
Lemma shl_small (x n k : Z) :
  0 <= n -> 0 <= k -> n + k <= 31 -> 0 <= x < 2 ^ k ->
  shl x n = x * 2 ^ n /\ 0 <= shl x n < 2 ^ (n + k).
Proof.
  intros Hn Hk Hnk Hx.
  assert (H2k : 2 ^ k <= 2 ^ 31) by (apply Z.pow_le_mono_r; lia).
  assert (H2n : 0 < 2 ^ n) by (apply Z.pow_pos_nonneg; lia).
  assert (Hprod : 0 <= x * 2 ^ n < 2 ^ (n + k)).
  { rewrite Z.pow_add_r by lia. nia. }
  assert (H2nk : 2 ^ (n + k) <= 2 ^ 31) by (apply Z.pow_le_mono_r; lia).
  unfold shl, toUint32.
  rewrite (toInt32_small x) by lia.
  rewrite (Z.mod_small n (2 ^ 32)) by lia.
  rewrite (Z.mod_small n 32) by lia.
  rewrite Z.shiftl_mul_pow2 by lia.
  rewrite toInt32_small by lia.
  split; [reflexivity | exact Hprod].
Qed.

Lemma lor_bound (a b n : Z) :
  0 <= n -> 0 <= a < 2 ^ n -> 0 <= b < 2 ^ n -> 0 <= Z.lor a b < 2 ^ n.
Proof.
  intros Hn Ha Hb.
  assert (Hnn : 0 <= Z.lor a b) by (apply Z.lor_nonneg; lia).
  split; [exact Hnn |].
  destruct (Z.eq_dec (Z.lor a b) 0) as [-> | Hne].
  - apply Z.pow_pos_nonneg; lia.
  - assert (Hn0 : 0 < n).
    { destruct (Z.eq_dec n 0) as [-> | ?]; [| lia].
      exfalso. apply Hne.
      replace a with 0 by (simpl in Ha; lia).
      replace b with 0 by (simpl in Hb; lia). reflexivity. }
    assert (Hlog : forall c, 0 <= c < 2 ^ n -> Z.log2 c < n).
    { intros c Hc. destruct (Z.eq_dec c 0) as [-> | Hc0].
      - exact Hn0.
      - apply Z.log2_lt_pow2; lia. }
    apply Z.log2_lt_pow2; [lia |].
    rewrite Z.log2_lor by lia.
    pose proof (Hlog a Ha). pose proof (Hlog b Hb). lia.
Qed.

(** [|] on operands below [2^n], [n <= 31]. *)
Lemma bor_bound (a b n : Z) :
  0 <= n <= 31 -> 0 <= a < 2 ^ n -> 0 <= b < 2 ^ n ->
  0 <= bor a b < 2 ^ n.
Proof.
  intros Hn Ha Hb.
  assert (2 ^ n <= 2 ^ 31) by (apply Z.pow_le_mono_r; lia).
  unfold bor. rewrite !toInt32_small by lia.
  apply lor_bound; lia.
Qed.

End Int32.

(** * Dynamic truncation *)

Lemma index_inside (a : list Z) (i : Z) :
  0 <= i < Z.of_nat (length a) -> exists x, index a i = Some x.
Proof.
  intros Hi. unfold index.
  destruct (Z.ltb_spec i 0) as [Hneg | _]; [lia |].
  destruct (nth_error a (Z.to_nat i)) as [x |] eqn:Hnth.
  - exists x. reflexivity.
  - apply nth_error_None in Hnth. lia.
Qed.

Lemma truncateOffset_range (hmac : list Z) : 0 <= truncateOffset hmac <= 15.
Proof.
  unfold truncateOffset.
  pose proof (band_ones_bound (at_ hmac (Z.of_nat (length hmac) - 1)) 4
                ltac:(lia)) as H.
  change (Z.ones 4) with 15 in H. change (2 ^ 4) with 16 in H.
  change 0x0F with 15. lia.
Qed.

(** The 31-bit value the four bytes are assembled to. *)
Lemma truncate_value_range (b0 b1 b2 b3 : Z) :
  0 <= bor (bor (bor (shl (band b0 0x7F) 24) (shl (band b1 0xFF) 16))
                (shl (band b2 0xFF) 8))
           (band b3 0xFF) < 2 ^ 31.
Proof.
  pose proof (band_ones_bound b0 7 ltac:(lia)) as H0.
  pose proof (band_ones_bound b1 8 ltac:(lia)) as H1.
  pose proof (band_ones_bound b2 8 ltac:(lia)) as H2.
  pose proof (band_ones_bound b3 8 ltac:(lia)) as H3.
  change (Z.ones 7) with 0x7F in H0. change (Z.ones 8) with 0xFF in H1, H2, H3.
  destruct (shl_small _ 24 7 ltac:(lia) ltac:(lia) ltac:(lia) H0) as [_ S0].
  destruct (shl_small _ 16 8 ltac:(lia) ltac:(lia) ltac:(lia) H1) as [_ S1].
  destruct (shl_small _ 8 8 ltac:(lia) ltac:(lia) ltac:(lia) H2) as [_ S2].
  simpl Z.add in S0, S1, S2.
  apply bor_bound; [lia | | change (2 ^ 8) with 256 in H3; lia].
  apply bor_bound; [lia | | change (2 ^ 16) with 65536 in S2; lia].
  apply bor_bound; [lia | exact S0 |].
  change (2 ^ 24) with 16777216 in S1. lia.
Qed.

(** For every array, of any length and content, the code is a number
    between 0 and 999999. *)
Lemma dynamicTruncate_range (hmac : list Z) :
  0 <= dynamicTruncate hmac < 10 ^ 6.
Proof.
  unfold dynamicTruncate, rem.
  change (10 ^ Z.of_nat codeDigits) with (10 ^ 6).
  apply Z.rem_bound_pos; [| lia].
  apply truncate_value_range.
Qed.

(** C10: on a digest of twenty bytes the offset [hmac[19] & 0x0F] lies
    between 0 and 15, every index [dynamicTruncate] reads lies inside the
    digest, the last of them, [offset + 3], being at most 18, and the
    function returns its result without an element read outside the array. *)
Theorem dynamicTruncate_in_bounds (hmac : list Z) :
  length hmac = 20%nat ->
  0 <= truncateOffset hmac <= 15
  /\ truncateOffset hmac + 3 <= 18
  /\ Forall (fun i => 0 <= i < Z.of_nat (length hmac)) (truncateReads hmac)
  /\ dynamicTruncateChecked hmac = Some (dynamicTruncate hmac).
Proof.
  intros Hlen.
  pose proof (truncateOffset_range hmac) as Hoff.
  split; [exact Hoff |]. split; [lia |]. split.
  - unfold truncateReads. rewrite Hlen.
    repeat (constructor; [lia |]). constructor.
  - unfold dynamicTruncateChecked, dynamicTruncate.
    assert (Hlast : truncateOffset hmac
                    = band (at_ hmac (Z.of_nat (length hmac) - 1)) 0x0F)
      by reflexivity.
    unfold at_ in *.
    destruct (index_inside hmac (Z.of_nat (length hmac) - 1) ltac:(lia))
      as [last Elast].
    rewrite Elast in *. simpl num in Hlast. rewrite <- Hlast.
    destruct (index_inside hmac (truncateOffset hmac) ltac:(lia)) as [b0 E0].
    destruct (index_inside hmac (truncateOffset hmac + 1) ltac:(lia))
      as [b1 E1].
    destruct (index_inside hmac (truncateOffset hmac + 2) ltac:(lia))
      as [b2 E2].
    destruct (index_inside hmac (truncateOffset hmac + 3) ltac:(lia))
      as [b3 E3].
    rewrite E0, E1, E2, E3. reflexivity.
Qed.

(** The digest of the empty message is such a digest. *)
Lemma dynamicTruncate_in_bounds_witness :
  length (sha1Simple []) = 20%nat
  /\ dynamicTruncateChecked (sha1Simple [])
     = Some (dynamicTruncate (sha1Simple [])).
Proof.
  split; [vm_compute; reflexivity |].
  apply (dynamicTruncate_in_bounds (sha1Simple [])).
  vm_compute. reflexivity.
Defined.

(** * The secret validator *)

Lemma cleanSecret_string (h : Host) (s : jsstring) :
  cleanSecret h (VString s) = Normal (normalized h s).
Proof. reflexivity. Qed.

Lemma cleanSecret_not_string (h : Host) (v : value) :
  (forall s, v <> VString s) -> cleanSecret h v = Throw TypeError.
Proof.
  intros Hv. destruct v as [s | n | |]; try reflexivity.
  exfalso. apply (Hv s). reflexivity.
Qed.

Lemma regexTest_iff (s : jsstring) :
  regexTest s = true <-> s <> [] /\ forallb base32Class s = true.
Proof.
  destruct s as [| c s]; simpl.
  - split; [discriminate | intros [Hne _]; contradiction].
  - split; [intros H; split; [discriminate | exact H] | intros [_ H]; exact H].
Qed.

(** On a string the catch clause is never entered. *)
Lemma validateSecret_string (h : Host) (s : jsstring) :
  validateSecret h (VString s)
  = Normal (regexTest (normalized h s)
            && (16 <=? length (normalized h s))%nat).
Proof. reflexivity. Qed.

Lemma validateSecret_true_class (h : Host) (s : jsstring) :
  validateSecret h (VString s) = Normal true ->
  forallb base32Class (normalized h s) = true.
Proof.
  rewrite validateSecret_string. intros H.
  assert (Hb : regexTest (normalized h s)
               && (16 <=? length (normalized h s))%nat = true)
    by congruence.
  apply andb_true_iff in Hb. destruct Hb as [Hre _].
  apply regexTest_iff in Hre. apply Hre.
Qed.

(** C9: [validateSecret] never throws; on a string it returns true exactly
    when the normalized string is non-empty, has only characters of
    [[A-Z2-7=]] and has at least 16 of them, and false otherwise; on a value
    that is not a string it returns false. *)
Theorem validateSecret_iff (h : Host) (s : jsstring) :
  (validateSecret h (VString s) = Normal true
   <-> normalized h s <> []
       /\ forallb base32Class (normalized h s) = true
       /\ (16 <= length (normalized h s))%nat)
  /\ (validateSecret h (VString s) = Normal true
      \/ validateSecret h (VString s) = Normal false)
  /\ (forall v, exists b, validateSecret h v = Normal b)
  /\ (forall v, (forall s', v <> VString s') ->
        validateSecret h v = Normal false).
Proof.
  pose proof (validateSecret_string h) as Hstr.
  assert (Hother : forall v, (forall s', v <> VString s') ->
                     validateSecret h v = Normal false).
  { intros v Hv. unfold validateSecret.
    rewrite (cleanSecret_not_string h v Hv). reflexivity. }
  split; [| split; [| split]].
  - rewrite Hstr. split.
    + intros H.
      assert (Hb : regexTest (normalized h s)
                   && (16 <=? length (normalized h s))%nat = true)
        by congruence.
      apply andb_true_iff in Hb. destruct Hb as [Hre Hlen].
      apply regexTest_iff in Hre. apply Nat.leb_le in Hlen.
      destruct Hre. repeat split; assumption.
    + intros (Hne & Hall & Hlen). f_equal.
      apply andb_true_iff. split.
      * apply regexTest_iff. split; assumption.
      * apply Nat.leb_le. exact Hlen.
  - rewrite Hstr.
    destruct (regexTest (normalized h s)
              && (16 <=? length (normalized h s))%nat); [left | right];
      reflexivity.
  - intros v. destruct v as [s0 | n | |].
    + rewrite Hstr. eexists. reflexivity.
    + exists false. apply Hother. discriminate.
    + exists false. apply Hother. discriminate.
    + exists false. apply Hother. discriminate.
  - exact Hother.
Qed.

(** Section 8: sixteen lower-case letters validate, ["12345"] does not. *)
Example validateSecret_lowercase (now : Z) :
  validateSecret (plainHost now) (VString (lit "abcdefghijklmnop"))
  = Normal true.
Proof. reflexivity. Qed.

Example validateSecret_too_short (now : Z) :
  validateSecret (plainHost now) (VString (lit "12345")) = Normal false
  /\ normalized (plainHost now) (lit "12345") = lit "I2345".
Proof. split; reflexivity. Qed.

(** * Code generation: failure of the decoder *)

(** C3 fails on the code as stated: a secret that does not decode makes
    [generate] return normally.  For the secret ["!"] the decoder throws
    and [generate] resolves to a string, it does not reject. *)
Lemma generate_decode_failure_not_raised :
  ~ (forall (h : Host) (s : jsstring) (time : option Z) (e : error),
       base32Decode h (normalized h s) = Throw e ->
       exists e', generate h (VString s) time = Throw e').
Proof.
  intros claim.
  destruct (claim (plainHost 0) (lit "!") (Some 59)
              (InvalidBase32Character 33) eq_refl) as [e' He'].
  vm_compute in He'. discriminate He'.
Qed.

(** C3, amended: when the normalized secret fails Base32 decoding,
    [generate] catches the error and resolves to the fixed string ["ERROR"],
    which is not a string of six digits and so differs from every code. *)
Theorem generate_decode_failure_sentinel
    (h : Host) (s : jsstring) (time : option Z) (e : error) :
  base32Decode h (normalized h s) = Throw e ->
  generate h (VString s) time = Normal (lit "ERROR")
  /\ sixDigits (lit "ERROR") = false.
Proof.
  intros Hdec. split; [| reflexivity].
  unfold generate, generateBody.
  rewrite cleanSecret_string. simpl bind.
  rewrite Hdec. reflexivity.
Qed.

(** A secret with a character outside the alphabet. *)
Lemma generate_decode_failure_sentinel_witness :
  base32Decode (plainHost 0) (normalized (plainHost 0) (lit "JBSWY3DP!"))
  = Throw (InvalidBase32Character 33)
  /\ generate (plainHost 0) (VString (lit "JBSWY3DP!")) None
     = Normal (lit "ERROR").
Proof.
  split; [reflexivity |].
  apply (generate_decode_failure_sentinel (plainHost 0) (lit "JBSWY3DP!") None
           (InvalidBase32Character 33)).
  reflexivity.
Defined.

(** * The Base32 decoder *)

(** A property checked on the 128 ASCII code units holds of each. *)
Lemma ascii_forall (P : N -> bool) :
  forallb P (map N.of_nat (seq 0 128)) = true ->
  forall c, (c < 128)%N -> P c = true.
Proof.
  intros Hall c Hc.
  rewrite forallb_forall in Hall. apply Hall.
  rewrite <- (N2Nat.id c). apply in_map. apply in_seq. lia.
Qed.

Lemma indexOfFrom_absent (s : jsstring) (c : N) (i : Z) :
  (forall x, In x s -> x <> c) -> indexOfFrom i s c = -1.
Proof.
  revert i. induction s as [| x s IH]; intros i Hs; simpl.
  - reflexivity.
  - destruct (N.eqb_spec x c) as [-> | _].
    + exfalso. apply (Hs c); [left; reflexivity | reflexivity].
    + apply IH. intros y Hy. apply Hs. right. exact Hy.
Qed.

(** [indexOf] finds exactly the characters of the alphabet, each at its
    index. *)
Lemma indexOf_base32Chars (c : N) :
  indexOf base32Chars c
  = if RFC.inAlphabet c then RFC.alphabetIndex c else -1.
Proof.
  destruct (N.ltb_spec c 128) as [Hlt | Hge].
  - apply Z.eqb_eq.
    apply (ascii_forall
             (fun c => indexOf base32Chars c
                       =? if RFC.inAlphabet c then RFC.alphabetIndex c
                          else -1)); [vm_compute; reflexivity | exact Hlt].
  - replace (RFC.inAlphabet c) with false.
    + apply indexOfFrom_absent. intros x Hx ->.
      assert (Hall : forallb isAscii base32Chars = true) by reflexivity.
      rewrite forallb_forall in Hall. specialize (Hall c Hx).
      unfold isAscii in Hall. apply N.ltb_lt in Hall. lia.
    + symmetry. unfold RFC.inAlphabet, inRange. simpl N_of_ascii.
      apply orb_false_iff. split; apply andb_false_iff; right;
        apply N.leb_gt; lia.
Qed.

Lemma alphabetIndex_range (c : N) :
  RFC.inAlphabet c = true -> 0 <= RFC.alphabetIndex c < 32.
Proof.
  unfold RFC.inAlphabet, RFC.alphabetIndex, inRange. simpl N_of_ascii.
  intros H. apply orb_true_iff in H.
  destruct ((65 <=? c)%N && (c <=? 90)%N) eqn:Hupper.
  - apply andb_true_iff in Hupper. destruct Hupper as [H1 H2].
    apply N.leb_le in H1, H2. lia.
  - destruct H as [H | H]; [discriminate |].
    apply andb_true_iff in H. destruct H as [H1 H2].
    apply N.leb_le in H1, H2. lia.
Qed.

(** The five binary digits the loop appends for an index. *)
Lemma index_digits (idx : Z) :
  0 <= idx < 32 ->
  padStart 5 (N_of_ascii "0") (toStringRadix 2 idx)
  = map bitChar (RFC.fiveBits idx).
Proof.
  intros Hidx.
  assert (Hall : forallb
                   (fun k =>
                      if list_eq_dec N.eq_dec
                           (padStart 5 (N_of_ascii "0")
                              (toStringRadix 2 (Z.of_nat k)))
                           (map bitChar (RFC.fiveBits (Z.of_nat k)))
                      then true else false)
                   (seq 0 32) = true) by (vm_compute; reflexivity).
  rewrite forallb_forall in Hall.
  specialize (Hall (Z.to_nat idx)).
  rewrite Z2Nat.id in Hall by lia.
  destruct (list_eq_dec N.eq_dec _ _) as [Heq | _].
  - exact Heq.
  - assert (false = true); [| discriminate].
    apply Hall. apply in_seq. lia.
Qed.

Lemma bitsLoop_success (encoded bits : jsstring) :
  forallb RFC.inAlphabet encoded = true ->
  bitsLoop encoded bits
  = Normal (bits ++ map bitChar
                      (flat_map (fun c => RFC.fiveBits (RFC.alphabetIndex c))
                                encoded)).
Proof.
  revert bits. induction encoded as [| c rest IH]; intros bits Hall.
  - simpl. rewrite app_nil_r. reflexivity.
  - simpl in Hall. apply andb_true_iff in Hall. destruct Hall as [Hc Hrest].
    cbn [bitsLoop]. rewrite indexOf_base32Chars, Hc.
    pose proof (alphabetIndex_range c Hc) as Hrange.
    destruct (Z.eqb_spec (RFC.alphabetIndex c) (-1)) as [Hneg | _]; [lia |].
    rewrite IH by exact Hrest.
    rewrite index_digits by exact Hrange.
    cbn [flat_map]. rewrite map_app, app_assoc. reflexivity.
Qed.

Lemma bitsLoop_failure (encoded bits : jsstring) :
  forallb RFC.inAlphabet encoded = false ->
  exists c, bitsLoop encoded bits = Throw (InvalidBase32Character c)
            /\ In c encoded /\ RFC.inAlphabet c = false.
Proof.
  revert bits. induction encoded as [| c rest IH]; intros bits Hall.
  - discriminate Hall.
  - cbn [bitsLoop]. rewrite indexOf_base32Chars.
    destruct (RFC.inAlphabet c) eqn:Hc.
    + pose proof (alphabetIndex_range c Hc) as Hrange.
      destruct (Z.eqb_spec (RFC.alphabetIndex c) (-1)) as [Hneg | _]; [lia |].
      simpl in Hall. rewrite Hc in Hall. simpl in Hall.
      destruct (IH (bits ++ padStart 5 (N_of_ascii "0")
                             (toStringRadix 2 (RFC.alphabetIndex c))) Hall)
        as (c' & Hthrow & Hin & Hout).
      exists c'. repeat split; [exact Hthrow | right; exact Hin | exact Hout].
    + exists c. repeat split; [left; reflexivity | exact Hc].
Qed.

Lemma parseInt2_bits_from (bits : list bool) (acc : Z) :
  fold_left (fun acc c => 2 * acc + (Z.of_N c - 48)) (map bitChar bits) acc
  = fold_left (fun acc (b : bool) => 2 * acc + (if b then 1 else 0)) bits acc.
Proof.
  revert acc. induction bits as [| b bits IH]; intros acc; simpl.
  - reflexivity.
  - rewrite IH. destruct b; reflexivity.
Qed.

Lemma parseInt2_bits (bits : list bool) :
  parseInt2 (map bitChar bits) = RFC.bitsValue bits.
Proof. apply parseInt2_bits_from. Qed.

(** Fewer than eight bits make no byte. *)
Lemma groupsOfEight_short (bits : list bool) :
  (length bits < 8)%nat -> RFC.groupsOfEight bits = [].
Proof.
  intros Hlen.
  do 8 (destruct bits as [| ? bits]; [reflexivity |]).
  simpl in Hlen. lia.
Qed.

(** The second loop of the decoder, started at position [length done], cuts
    the remaining digits into groups of eight. *)
Lemma bytesLoop_groups (fuel : nat) :
  forall (done : jsstring) (bits : list bool),
    (length bits <= fuel)%nat ->
    bytesLoop fuel (done ++ map bitChar bits) (length done)
    = RFC.groupsOfEight bits.
Proof.
  induction fuel as [| fuel IH]; intros done bits Hfuel.
  - destruct bits; [reflexivity | simpl in Hfuel; lia].
  - cbn [bytesLoop]. rewrite length_app, length_map.
    destruct (Nat.leb_spec (length done + 8) (length done + length bits))
      as [Hle | Hgt].
    + destruct bits
        as [| b0 [| b1 [| b2 [| b3 [| b4 [| b5 [| b6 [| b7 rest]]]]]]]];
        simpl in Hle; try lia.
      set (group := [b0; b1; b2; b3; b4; b5; b6; b7]).
      change (b0 :: b1 :: b2 :: b3 :: b4 :: b5 :: b6 :: b7 :: rest)
        with (group ++ rest).
      assert (Hfirst : substr (done ++ map bitChar (group ++ rest))
                              (length done) 8
                       = map bitChar group).
      { unfold substr. rewrite skipn_app, Nat.sub_diag, skipn_all.
        reflexivity. }
      rewrite Hfirst, parseInt2_bits.
      change (RFC.groupsOfEight (group ++ rest))
        with (RFC.bitsValue group :: RFC.groupsOfEight rest).
      f_equal.
      rewrite map_app, app_assoc.
      replace (length done + 8)%nat with (length (done ++ map bitChar group))
        by (rewrite length_app; reflexivity).
      apply IH. simpl in Hfuel. lia.
    + rewrite groupsOfEight_short by lia. reflexivity.
Qed.

Lemma groupsOfEight_length (n : nat) :
  forall bits, (length bits <= n)%nat ->
               length (RFC.groupsOfEight bits) = (length bits / 8)%nat.
Proof.
  induction n as [| n IH]; intros bits Hn.
  - destruct bits; [reflexivity | simpl in Hn; lia].
  - destruct (Nat.lt_ge_cases (length bits) 8) as [Hlt | Hge].
    + rewrite groupsOfEight_short by exact Hlt.
      rewrite Nat.div_small by exact Hlt. reflexivity.
    + destruct bits
        as [| b0 [| b1 [| b2 [| b3 [| b4 [| b5 [| b6 [| b7 rest]]]]]]]];
        simpl in Hge; try lia.
      cbn [RFC.groupsOfEight length].
      rewrite IH by (simpl in Hn; lia).
      change (S (S (S (S (S (S (S (S (length rest)))))))))
        with (8 + length rest)%nat.
      replace (8 + length rest)%nat with (length rest + 1 * 8)%nat by lia.
      rewrite Nat.div_add by lia. lia.
Qed.

Lemma fiveBits_length (chars : jsstring) :
  length (flat_map (fun c => RFC.fiveBits (RFC.alphabetIndex c)) chars)
  = (5 * length chars)%nat.
Proof.
  induction chars as [| c chars IH]; [reflexivity |].
  cbn [flat_map]. rewrite length_app, IH. simpl length. lia.
Qed.

(** Removing the padding characters twice removes no more than once. *)
Lemma replaceAll_remove_idempotent (matches : N -> bool) (s : jsstring) :
  replaceAll matches [] (replaceAll matches [] s) = replaceAll matches [] s.
Proof.
  unfold replaceAll. induction s as [| c s IH]; [reflexivity |].
  cbn [flat_map]. destruct (matches c) eqn:Hc.
  - exact IH.
  - cbn [app flat_map]. rewrite Hc, IH. reflexivity.
Qed.

Lemma replaceAll_remove_none (matches : N -> bool) (s : jsstring) :
  forallb (fun c => negb (matches c)) (replaceAll matches [] s) = true.
Proof.
  unfold replaceAll. induction s as [| c s IH]; [reflexivity |].
  cbn [flat_map]. destruct (matches c) eqn:Hc.
  - exact IH.
  - cbn [app forallb]. rewrite Hc, IH. reflexivity.
Qed.

Lemma base32Decode_success (h : Host) (s : jsstring) :
  forallb RFC.inAlphabet (toUpperCase h (replaceAll (isChar "=") [] s))
  = true ->
  base32Decode h s
  = Normal (RFC.base32Bytes (toUpperCase h (replaceAll (isChar "=") [] s))).
Proof.
  intros Hall. unfold base32Decode.
  rewrite bitsLoop_success by exact Hall.
  cbn [bind app]. f_equal.
  apply (bytesLoop_groups _ []).
  rewrite length_map. apply Nat.le_refl.
Qed.

Lemma plainHost_upperAscii (now : Z) : HostUpperAscii (plainHost now).
Proof. intros s _. reflexivity. Qed.

(** C8 fails on the code as stated: the decoder upper-cases its input after
    removing the padding, so a lower-case letter, which is outside [A]-[Z]
    and [2]-[7], does not make it fail: ["aaaaaaaa"] decodes to five zero
    bytes. *)
Lemma base32Decode_accepts_lower_case :
  ~ (forall (h : Host) (s : jsstring),
       HostUpperAscii h ->
       (exists e, base32Decode h s = Throw e)
       <-> (exists c, In c (replaceAll (isChar "=") [] s)
                      /\ RFC.inAlphabet c = false)).
Proof.
  intros claim.
  destruct (claim (plainHost 0) (lit "aaaaaaaa") (plainHost_upperAscii 0))
    as [_ Hfail].
  destruct Hfail as [e He].
  - exists 97%N. split; [left; reflexivity | reflexivity].
  - vm_compute in He. discriminate He.
Qed.

(** C8, amended: [base32Decode] first removes every [=], so that padding
    never makes it fail, and upper-cases what remains; it throws exactly
    when some character of that upper-cased string is outside [A]-[Z],
    [2]-[7]; otherwise it returns the bytes obtained from the 5-bit indices
    of the characters, concatenated in order and cut into groups of eight
    bits from the front, a shorter last group dropped: [floor(5n/8)] bytes
    for the [n] characters of the upper-cased string. *)
Theorem base32Decode_spec (h : Host) (s : jsstring) :
  let stripped := replaceAll (isChar "=") [] s in
  let encoded := toUpperCase h stripped in
  forallb (fun c => negb (isChar "=" c)) stripped = true
  /\ base32Decode h stripped = base32Decode h s
  /\ ((exists e, base32Decode h s = Throw e)
      <-> (exists c, In c encoded /\ RFC.inAlphabet c = false))
  /\ (forallb RFC.inAlphabet encoded = true ->
      base32Decode h s = Normal (RFC.base32Bytes encoded)
      /\ length (RFC.base32Bytes encoded) = (5 * length encoded / 8)%nat).
Proof.
  intros stripped encoded.
  split; [apply replaceAll_remove_none |].
  split.
  { unfold base32Decode. fold stripped.
    unfold stripped at 1. rewrite replaceAll_remove_idempotent.
    reflexivity. }
  assert (Hok : forallb RFC.inAlphabet encoded = true ->
                base32Decode h s = Normal (RFC.base32Bytes encoded))
    by apply base32Decode_success.
  split; [split |].
  - intros [e He].
    destruct (forallb RFC.inAlphabet encoded) eqn:Hall.
    + rewrite Hok in He by reflexivity. discriminate He.
    + destruct (bitsLoop_failure encoded [] Hall) as (c & _ & Hin & Hout).
      exists c. split; assumption.
  - intros (c & Hin & Hout).
    destruct (forallb RFC.inAlphabet encoded) eqn:Hall.
    + rewrite forallb_forall in Hall. rewrite (Hall c Hin) in Hout.
      discriminate Hout.
    + destruct (bitsLoop_failure encoded [] Hall) as (c' & Hthrow & _).
      exists (InvalidBase32Character c').
      unfold base32Decode. fold stripped. fold encoded.
      rewrite Hthrow. reflexivity.
  - intros Hall. split; [apply Hok; exact Hall |].
    unfold RFC.base32Bytes.
    rewrite (groupsOfEight_length _ _ (Nat.le_refl _)).
    rewrite fiveBits_length. reflexivity.
Qed.

(** * Numbers as decimal strings *)

(** The value a string of decimal digits denotes. *)
Lemma digitChar_digit (d : Z) :
  0 <= d < 10 -> isDigit (digitChar d) = true /\ Z.of_N (digitChar d) - 48 = d.
Proof.
  intros Hd. unfold isDigit, inRange, digitChar. simpl N_of_ascii.
  split.
  - apply andb_true_iff. split; apply N.leb_le; lia.
  - lia.
Qed.

Lemma digitsRev_digits (fuel : nat) :
  forall n, 0 <= n -> forallb isDigit (digitsRev fuel 10 n) = true.
Proof.
  induction fuel as [| fuel IH]; intros n Hn; [reflexivity |].
  cbn [digitsRev]. destruct (Z.ltb_spec n 10) as [Hlt | Hge].
  - cbn [forallb]. rewrite (proj1 (digitChar_digit n ltac:(lia))).
    reflexivity.
  - cbn [forallb].
    pose proof (Z.mod_pos_bound n 10 ltac:(lia)) as Hmod.
    rewrite (proj1 (digitChar_digit (n mod 10) Hmod)).
    apply IH. apply Z.div_pos; lia.
Qed.

(** A number below [10^k] has at most [k] digits. *)
Lemma digitsRev_length (fuel : nat) :
  forall (k : nat) (n : Z),
    (1 <= k)%nat -> 0 <= n < 10 ^ Z.of_nat k ->
    (length (digitsRev fuel 10 n) <= k)%nat.
Proof.
  induction fuel as [| fuel IH]; intros k n Hk Hn; [simpl; lia |].
  cbn [digitsRev]. destruct (Z.ltb_spec n 10) as [Hlt | Hge].
  - simpl. exact Hk.
  - destruct k as [| [| k]]; [lia | simpl in Hn; lia |].
    cbn [length]. apply le_n_S. apply IH; [lia |].
    split; [apply Z.div_pos; lia |].
    apply Z.div_lt_upper_bound; [lia |].
    replace (Z.of_nat (S (S k))) with (1 + Z.of_nat (S k)) in Hn by lia.
    rewrite Z.pow_add_r in Hn by lia. lia.
Qed.

(** With the fuel [toStringRadix] gives it, the loop writes all the digits
    of the number: reading them back gives the number. *)
Lemma digitsRev_value (fuel : nat) :
  forall n, 0 <= n < 2 ^ Z.of_nat fuel ->
            fold_right (fun c acc => (Z.of_N c - 48) + 10 * acc) 0
                       (digitsRev fuel 10 n) = n.
Proof.
  induction fuel as [| fuel IH]; intros n Hn.
  - simpl in *. lia.
  - cbn [digitsRev]. destruct (Z.ltb_spec n 10) as [Hlt | Hge].
    + cbn [fold_right].
      rewrite (proj2 (digitChar_digit n ltac:(lia))). lia.
    + cbn [fold_right].
      pose proof (Z.mod_pos_bound n 10 ltac:(lia)) as Hmod.
      rewrite (proj2 (digitChar_digit (n mod 10) Hmod)).
      rewrite IH.
      * pose proof (Z.div_mod n 10 ltac:(lia)). lia.
      * split; [apply Z.div_pos; lia |].
        apply Z.div_lt_upper_bound; [lia |].
        replace (Z.of_nat (S fuel)) with (1 + Z.of_nat fuel) in Hn by lia.
        rewrite Z.pow_add_r in Hn by lia.
        change (2 ^ 1) with 2 in Hn. lia.
Qed.

Lemma toStringRadix_value (n : Z) :
  0 <= n ->
  fold_right (fun c acc => (Z.of_N c - 48) + 10 * acc) 0
             (rev (toStringRadix 10 n)) = n.
Proof.
  intros Hn. unfold toStringRadix. rewrite rev_involutive.
  apply digitsRev_value. split; [exact Hn |].
  destruct (Z.eq_dec n 0) as [-> | Hpos]; [reflexivity |].
  rewrite Nat2Z.inj_succ, Z2Nat.id by apply Z.log2_nonneg.
  apply Z.log2_spec. lia.
Qed.

(** The code, padded to six characters, is six decimal digits. *)
Lemma code_string_six_digits (code : Z) :
  0 <= code < 10 ^ 6 ->
  sixDigits (padStart codeDigits (N_of_ascii "0") (toStringRadix 10 code))
  = true.
Proof.
  intros Hcode. unfold sixDigits, padStart, toStringRadix.
  set (fuel := S (Z.to_nat (Z.log2 code))).
  pose proof (digitsRev_length fuel 6 code ltac:(lia) Hcode) as Hlen.
  pose proof (digitsRev_digits fuel code ltac:(lia)) as Hdig.
  apply andb_true_iff. split.
  - apply Nat.eqb_eq.
    rewrite length_app, repeat_length, length_rev.
    unfold codeDigits. lia.
  - rewrite forallb_app. apply andb_true_iff. split.
    + apply forallb_forall. intros c Hc.
      apply repeat_spec in Hc. subst c. reflexivity.
    + apply forallb_forall. intros c Hc.
      rewrite forallb_forall in Hdig. apply Hdig.
      apply in_rev. exact Hc.
Qed.

(** * Code generation on a validated secret *)

Lemma base32Class_stripped (c : N) :
  base32Class c = true -> isChar "=" c = false ->
  RFC.inAlphabet c = true /\ isAscii c = true /\ upperAscii c = c.
Proof.
  unfold base32Class, RFC.inAlphabet, isAscii, upperAscii, inRange, isChar.
  simpl N_of_ascii. intros Hclass Hpad. rewrite Hpad, orb_false_r in Hclass.
  split; [exact Hclass |].
  apply orb_true_iff in Hclass.
  assert (Hle : (c <= 90)%N).
  { destruct Hclass as [H | H]; apply andb_true_iff in H;
      destruct H as [_ H]; apply N.leb_le in H; lia. }
  split.
  - apply N.ltb_lt. lia.
  - destruct (N.leb_spec 97 c) as [H97 | _]; [lia | reflexivity].
Qed.

Section ValidatedSecret.

(** A host whose [toUpperCase] is the ASCII mapping on ASCII strings. *)
Variable h : Host.
Hypothesis Hupper : HostUpperAscii h.

(** A string of the class [[A-Z2-7=]] without its padding is a string of
    the alphabet that upper-casing leaves as it is. *)
Lemma stripped_alphabet (s : jsstring) :
  forallb base32Class s = true ->
  toUpperCase h (replaceAll (isChar "=") [] s) = replaceAll (isChar "=") [] s
  /\ forallb RFC.inAlphabet (replaceAll (isChar "=") [] s) = true.
Proof.
  intros Hclass.
  assert (Hall : forall c, In c (replaceAll (isChar "=") [] s) ->
                   RFC.inAlphabet c = true /\ isAscii c = true
                   /\ upperAscii c = c).
  { intros c Hc. apply base32Class_stripped.
    - rewrite forallb_forall in Hclass. apply Hclass.
      unfold replaceAll in Hc. apply in_flat_map in Hc.
      destruct Hc as (x & Hx & Hcx).
      destruct (isChar "=" x); [contradiction |].
      destruct Hcx as [<- | []]. exact Hx.
    - pose proof (replaceAll_remove_none (isChar "=") s) as Hnone.
      rewrite forallb_forall in Hnone.
      apply negb_true_iff. apply Hnone. exact Hc. }
  split.
  - rewrite Hupper by (apply forallb_forall; intros c Hc; apply Hall; exact Hc).
    rewrite <- (map_id (replaceAll (isChar "=") [] s)) at 2.
    apply map_ext_in. intros c Hc. apply Hall. exact Hc.
  - apply forallb_forall. intros c Hc. apply Hall. exact Hc.
Qed.

(** A secret that passes [validateSecret] decodes. *)
Lemma validated_decodes (s : jsstring) :
  validateSecret h (VString s) = Normal true ->
  base32Decode h (normalized h s)
  = Normal (RFC.base32Bytes (replaceAll (isChar "=") [] (normalized h s))).
Proof.
  intros Hvalid.
  pose proof (validateSecret_true_class h s Hvalid) as Hclass.
  destruct (stripped_alphabet (normalized h s) Hclass) as [Hsame Halpha].
  rewrite base32Decode_success; rewrite Hsame; [reflexivity | exact Halpha].
Qed.

(** C5: for a secret that passes [validateSecret] and a non-negative
    timestamp, [generate] returns a string of exactly six ASCII decimal
    digits: the dynamic truncation value, which lies between 0 and
    [10^6 - 1], written in decimal and padded with zeros to width 6.
    (The proof uses nothing of the counter, so that the result stands
    whatever integer [Math.floor(time / 30)] is.) *)
Theorem generate_six_digits (s : jsstring) (time : Z) :
  validateSecret h (VString s) = Normal true ->
  0 <= time ->
  exists key : list Z,
    base32Decode h (normalized h s) = Normal key
    /\ let value := dynamicTruncate (hmacSha1 h key (intToBytes (time / 30))) in
       let code := padStart 6 (N_of_ascii "0") (toStringRadix 10 value) in
       0 <= value <= 10 ^ 6 - 1
       /\ generate h (VString s) (Some time) = Normal code
       /\ sixDigits code = true
       /\ fold_right (fun c acc => (Z.of_N c - 48) + 10 * acc) 0 (rev code)
          = value.
Proof.
  intros Hvalid Htime.
  pose proof (validated_decodes s Hvalid) as Hdec.
  eexists. split; [exact Hdec |].
  set (key := RFC.base32Bytes _) in *.
  intros value code.
  pose proof (dynamicTruncate_range (hmacSha1 h key (intToBytes (time / 30))))
    as Hrange.
  fold value in Hrange.
  split; [lia |]. split; [| split].
  - unfold generate, generateBody.
    rewrite cleanSecret_string. cbn [bind]. rewrite Hdec. reflexivity.
  - apply code_string_six_digits. exact Hrange.
  - unfold code, padStart. rewrite rev_app_distr, fold_right_app.
    assert (Hpad : forall k,
               fold_right (fun c acc => (Z.of_N c - 48) + 10 * acc) 0
                          (rev (repeat (N_of_ascii "0") k)) = 0).
    { induction k as [| k IH]; [reflexivity |].
      cbn [repeat rev]. rewrite fold_right_app. simpl fold_right at 2.
      exact IH. }
    rewrite Hpad. apply toStringRadix_value. lia.
Qed.

End ValidatedSecret.

(** The secret and the time of the known-answer test, without
    [crypto.subtle]. *)
Lemma generate_six_digits_witness :
  HostUpperAscii (plainHost 0)
  /\ validateSecret (plainHost 0) (VString (lit "JBSWY3DPEHPK3PXP"))
     = Normal true
  /\ 0 <= 59
  /\ exists key : list Z,
       base32Decode (plainHost 0)
         (normalized (plainHost 0) (lit "JBSWY3DPEHPK3PXP")) = Normal key
       /\ let value :=
            dynamicTruncate
              (hmacSha1 (plainHost 0) key (intToBytes (59 / 30))) in
          let code := padStart 6 (N_of_ascii "0") (toStringRadix 10 value) in
          0 <= value <= 10 ^ 6 - 1
          /\ generate (plainHost 0) (VString (lit "JBSWY3DPEHPK3PXP")) (Some 59)
             = Normal code
          /\ sixDigits code = true
          /\ fold_right (fun c acc => (Z.of_N c - 48) + 10 * acc) 0 (rev code)
             = value.
Proof.
  split; [apply plainHost_upperAscii |].
  split; [reflexivity |]. split; [lia |].
  apply (generate_six_digits (plainHost 0) (plainHost_upperAscii 0)
           (lit "JBSWY3DPEHPK3PXP") 59).
  - reflexivity.
  - lia.
Defined.

(** * The padding of the SHA-1 engine, in general *)

Lemma store_at (front back : list Z) (x v : Z) :
  store (front ++ x :: back) (length front) v = front ++ toUint8 v :: back.
Proof.
  unfold store.
  rewrite firstn_app, Nat.sub_diag, firstn_all, app_nil_r.
  replace (S (length front)) with (length front + 1)%nat by lia.
  rewrite skipn_app, skipn_all2 by lia.
  replace (length front + 1 - length front)%nat with 1%nat by lia.
  reflexivity.
Qed.

Lemma arraySet_zeros (n : nat) (source : list Z) :
  (length source <= n)%nat ->
  arraySet (newUint8Array n) source 0
  = source ++ repeat 0 (n - length source).
Proof.
  intros Hfit. unfold arraySet, newUint8Array. simpl.
  f_equal.
  replace n with (length source + (n - length source))%nat at 1 by lia.
  rewrite repeat_app, skipn_app, repeat_length, Nat.sub_diag.
  rewrite skipn_all2 by (rewrite repeat_length; lia).
  reflexivity.
Qed.

(** The number of zero bytes between [0x80] and the length field. *)
Lemma paddedLength_zeros (len : nat) :
  paddedLength len
  = (len + 1 + Z.to_nat ((55 - Z.of_nat len) mod 64) + 8)%nat.
Proof.
  unfold paddedLength, rem. do 3 f_equal.
  rewrite (Z.rem_mod_nonneg (Z.of_nat len + 1 + 8)) by lia.
  pose proof (Z.mod_pos_bound (Z.of_nat len + 1 + 8) 64 ltac:(lia)) as Hr.
  pose proof (Z.div_mod (Z.of_nat len + 1 + 8) 64 ltac:(lia)) as Hq.
  rewrite Z.rem_mod_nonneg by lia.
  set (r := (Z.of_nat len + 1 + 8) mod 64) in *.
  set (q := (Z.of_nat len + 1 + 8) / 64) in *.
  replace (55 - Z.of_nat len) with (64 - r + (- q) * 64) by lia.
  rewrite Z.mod_add by lia. reflexivity.
Qed.

(** A byte of the length field: [(msgLength >>> count) & 0xFF], the count
    of [>>>] reduced modulo 32. *)
Lemma length_byte (msgLength count : Z) :
  0 <= msgLength < 2 ^ 32 -> 0 <= count < 64 ->
  toUint8 (band (ushr msgLength count) 255)
  = (msgLength / 2 ^ (count mod 32)) mod 256.
Proof.
  intros Hm Hc. change 255 with (Z.ones 8).
  rewrite band_ones by lia. unfold toUint8, ushr, toUint32.
  change (2 ^ 8) with 256. rewrite Z.mod_mod by lia.
  rewrite (Z.mod_small msgLength) by exact Hm.
  rewrite (Z.mod_small count (2 ^ 32)) by lia.
  rewrite Z.shiftr_div_pow2 by (apply Z.mod_pos_bound; lia).
  reflexivity.
Qed.

Lemma store_length (a : list Z) (i : nat) (v : Z) :
  (i < length a)%nat -> length (store a i v) = length a.
Proof.
  intros Hi. unfold store.
  rewrite length_app. cbn [length].
  rewrite length_firstn, length_skipn. lia.
Qed.

Lemma store_app_r (front a : list Z) (i : nat) (v : Z) :
  store (front ++ a) (length front + i) v = front ++ store a i v.
Proof.
  unfold store.
  rewrite firstn_app, firstn_all2 by lia.
  replace (S (length front + i)) with (length front + S i)%nat by lia.
  rewrite skipn_app, skipn_all2 by lia.
  replace (length front + i - length front)%nat with i by lia.
  replace (length front + S i - length front)%nat with (S i) by lia.
  rewrite <- app_assoc. reflexivity.
Qed.

(** The loop that writes the length field touches the last eight bytes
    only. *)
Lemma length_loop_tail (val : nat -> Z) (positions : list nat) :
  forall front tail,
    length tail = 8%nat ->
    Forall (fun i => (i < 8)%nat) positions ->
    fold_left (fun pd i => store pd (length pd - 8 + i) (val i)) positions
              (front ++ tail)
    = front ++ fold_left (fun t i => store t i (val i)) positions tail.
Proof.
  induction positions as [| i positions IH]; intros front tail Htail Hpos.
  - reflexivity.
  - inversion Hpos as [| ? ? Hi Hrest]; subst.
    cbn [fold_left].
    replace (length (front ++ tail) - 8 + i)%nat with (length front + i)%nat
      by (rewrite length_app; lia).
    rewrite store_app_r. apply IH; [| exact Hrest].
    rewrite store_length; lia.
Qed.

(** The padded message for a message of fewer than 2^29 bytes: the message,
    [0x80], zeros up to 56 modulo 64, then the low 32 bits of the bit
    length twice: once where the high word of the 64-bit length belongs
    and once as its low word. *)
Theorem sha1Pad_shape (data : list Z) :
  Z.of_nat (length data) * 8 < 2 ^ 32 ->
  sha1Pad data
  = data ++ [128]
      ++ repeat 0 (Z.to_nat ((55 - Z.of_nat (length data)) mod 64))
      ++ RFC.bigEndian 4 (Z.of_nat (length data) * 8)
      ++ RFC.bigEndian 4 (Z.of_nat (length data) * 8).
Proof.
  intros Hsmall. unfold sha1Pad.
  set (m := Z.of_nat (length data) * 8) in *.
  set (k := Z.to_nat ((55 - Z.of_nat (length data)) mod 64)).
  rewrite arraySet_zeros by (rewrite paddedLength_zeros; lia).
  rewrite paddedLength_zeros. fold k.
  replace (length data + 1 + k + 8 - length data)%nat
    with (1 + (k + 8))%nat by lia.
  cbn [repeat Nat.add]. rewrite store_at.
  rewrite repeat_app.
  change (toUint8 128) with 128.
  replace (data ++ 128 :: repeat 0 k ++ repeat 0 8)
    with ((data ++ 128 :: repeat 0 k) ++ repeat 0 8)
    by (rewrite <- app_assoc; reflexivity).
  rewrite (length_loop_tail
             (fun i => band (ushr m (56 - Z.of_nat i * 8)) 255));
    [| reflexivity | repeat constructor].
  rewrite <- app_assoc. cbn [app]. do 3 f_equal.
  cbn [seq fold_left repeat store firstn skipn app].
  rewrite !length_byte by lia.
  reflexivity.
Qed.

Lemma skipn_tail (front tail : list Z) :
  skipn (length (front ++ tail) - length tail) (front ++ tail) = tail.
Proof.
  rewrite length_app.
  replace (length front + length tail - length tail)%nat
    with (length front) by lia.
  rewrite skipn_app, skipn_all, Nat.sub_diag. reflexivity.
Qed.

(** X24: hence for every message that is not empty the four bytes where
    the high word of the bit length belongs are not all zero. *)
Corollary sha1Pad_high_word (data : list Z) :
  data <> [] -> Z.of_nat (length data) * 8 < 2 ^ 32 ->
  firstn 4 (skipn (length (sha1Pad data) - 8) (sha1Pad data))
  <> [0; 0; 0; 0].
Proof.
  intros Hne Hsmall. rewrite (sha1Pad_shape data Hsmall).
  set (m := Z.of_nat (length data) * 8) in *.
  set (k := Z.to_nat ((55 - Z.of_nat (length data)) mod 64)).
  assert (Hm : 8 <= m).
  { destruct data; [contradiction | unfold m; simpl length; lia]. }
  rewrite !app_assoc. rewrite <- (app_assoc _ (RFC.bigEndian 4 m)).
  change 8%nat with (length (RFC.bigEndian 4 m ++ RFC.bigEndian 4 m)).
  rewrite skipn_tail.
  cbn [app RFC.bigEndian firstn]. intros Hzero.
  injection Hzero as H3 H2 H1 H0.
  change (Z.pow_pos 256 3) with (2 ^ 24) in H3.
  change (Z.pow_pos 256 2) with (2 ^ 16) in H2.
  change (Z.pow_pos 256 1) with 256 in H1.
  rewrite Z.div_1_r in H0.
  assert (E16 : m / 2 ^ 16 = m / 256 / 256)
    by (rewrite Z.div_div by lia; reflexivity).
  assert (E24 : m / 2 ^ 24 = m / 256 / 256 / 256)
    by (rewrite !Z.div_div by lia; reflexivity).
  assert (E32 : m / 256 / 256 / 256 / 256 = 0).
  { rewrite !Z.div_div by lia. apply Z.div_small.
    change (256 * 256 * 256 * 256) with (2 ^ 32). lia. }
  rewrite E24 in H3. rewrite E16 in H2.
  clearbody m. clear E16 E24.
  pose proof (Z.div_mod m 256 ltac:(lia)) as Hd0.
  set (q1 := m / 256) in *.
  pose proof (Z.div_mod q1 256 ltac:(lia)) as Hd1.
  set (q2 := q1 / 256) in *.
  pose proof (Z.div_mod q2 256 ltac:(lia)) as Hd2.
  set (q3 := q2 / 256) in *.
  pose proof (Z.div_mod q3 256 ltac:(lia)) as Hd3.
  clearbody q1 q2 q3.
  lia.
Qed.

(** * Code generation against RFC 6238, where the HMAC is the native one *)

(** [|] of a multiple of [2^k] and a number below [2^k] adds them. *)
Lemma lor_disjoint (hi lo k : Z) :
  0 <= k -> 0 <= lo < 2 ^ k -> Z.lor (hi * 2 ^ k) lo = hi * 2 ^ k + lo.
Proof.
  intros Hk Hlo.
  assert (Hland : Z.land (hi * 2 ^ k) lo = 0).
  { apply Z.bits_inj'. intros n Hn.
    rewrite Z.land_spec, Z.bits_0.
    destruct (Z.lt_ge_cases n k) as [Hlow | Hhigh].
    - rewrite Z.mul_pow2_bits_low by lia. reflexivity.
    - rewrite <- (Z.mod_small lo (2 ^ k)) by exact Hlo.
      rewrite Z.mod_pow2_bits_high by lia. apply andb_false_r. }
  pose proof (Z.add_lor_land (hi * 2 ^ k) lo) as Hadd.
  rewrite Hland in Hadd. lia.
Qed.

(** [intToBytes] writes the eight big-endian bytes of the counter. *)
Lemma intToBytes_bigEndian (int : Z) :
  intToBytes int = RFC.bigEndian 8 int.
Proof.
  unfold intToBytes. cbn [intToBytesLoop RFC.bigEndian].
  unfold floorDiv. change 255 with (Z.ones 8).
  rewrite !band_ones by lia. unfold toUint8.
  change (2 ^ 8) with 256. rewrite !Z.mod_mod by lia.
  rewrite !Z.div_div by lia.
  rewrite Z.div_1_r.
  reflexivity.
Qed.

(** The four bytes, the first below 128, are assembled big-endian. *)
Lemma assemble_big_endian (a b c d : Z) :
  0 <= a < 128 -> 0 <= b < 256 -> 0 <= c < 256 -> 0 <= d < 256 ->
  bor (bor (bor (shl a 24) (shl b 16)) (shl c 8)) d
  = RFC.fromBigEndian [a; b; c; d].
Proof.
  intros Ha Hb Hc Hd.
  destruct (shl_small a 24 7 ltac:(lia) ltac:(lia) ltac:(lia) Ha) as [-> _].
  destruct (shl_small b 16 8 ltac:(lia) ltac:(lia) ltac:(lia) Hb) as [-> _].
  destruct (shl_small c 8 8 ltac:(lia) ltac:(lia) ltac:(lia) Hc) as [-> _].
  unfold RFC.fromBigEndian. cbn [fold_left].
  assert (E1 : bor (a * 2 ^ 24) (b * 2 ^ 16) = a * 2 ^ 24 + b * 2 ^ 16).
  { unfold bor. rewrite !toInt32_small by lia.
    apply lor_disjoint; lia. }
  assert (E2 : bor (a * 2 ^ 24 + b * 2 ^ 16) (c * 2 ^ 8)
               = a * 2 ^ 24 + b * 2 ^ 16 + c * 2 ^ 8).
  { unfold bor. rewrite !toInt32_small by lia.
    replace (a * 2 ^ 24 + b * 2 ^ 16) with ((a * 2 ^ 8 + b) * 2 ^ 16) by lia.
    rewrite lor_disjoint by lia. reflexivity. }
  assert (E3 : bor (a * 2 ^ 24 + b * 2 ^ 16 + c * 2 ^ 8) d
               = a * 2 ^ 24 + b * 2 ^ 16 + c * 2 ^ 8 + d).
  { unfold bor. rewrite !toInt32_small by lia.
    replace (a * 2 ^ 24 + b * 2 ^ 16 + c * 2 ^ 8)
      with ((a * 2 ^ 16 + b * 2 ^ 8 + c) * 2 ^ 8) by lia.
    rewrite lor_disjoint by lia. reflexivity. }
  rewrite E1, E2, E3. lia.
Qed.

Lemma at_inside (a : list Z) (i : Z) :
  0 <= i < Z.of_nat (length a) -> at_ a i = nth (Z.to_nat i) a 0.
Proof.
  intros Hi. unfold at_, index.
  destruct (Z.ltb_spec i 0) as [Hneg | _]; [lia |].
  rewrite (nth_error_nth' a 0) by lia. reflexivity.
Qed.

(** On a digest of twenty bytes [dynamicTruncate] is the truncation of
    RFC 4226 to six digits. *)
Lemma dynamicTruncate_rfc4226 (digest : list Z) :
  length digest = 20%nat ->
  Forall (fun b => 0 <= b < 256) digest ->
  dynamicTruncate digest = RFC.truncate digest 6.
Proof.
  intros Hlen Hbytes.
  assert (Hbyte : forall i, (i < 20)%nat -> 0 <= nth i digest 0 < 256).
  { intros i Hi. rewrite Forall_forall in Hbytes.
    apply Hbytes. apply nth_In. lia. }
  pose proof (truncateOffset_range digest) as Hoff.
  assert (Eoff : truncateOffset digest = Z.land (nth 19 digest 0) 0x0F).
  { unfold truncateOffset. rewrite at_inside by lia.
    rewrite Hlen. change (Z.to_nat (Z.of_nat 20 - 1)) with 19%nat.
    change 0x0F with (Z.ones 4).
    rewrite band_ones, Z.land_ones by lia. reflexivity. }
  unfold dynamicTruncate, RFC.truncate, rem.
  rewrite !at_inside by lia. rewrite <- Eoff.
  set (o := truncateOffset digest) in *.
  replace (Z.to_nat (o + 1)) with (Z.to_nat o + 1)%nat by lia.
  replace (Z.to_nat (o + 2)) with (Z.to_nat o + 2)%nat by lia.
  replace (Z.to_nat (o + 3)) with (Z.to_nat o + 3)%nat by lia.
  pose proof (Hbyte (Z.to_nat o) ltac:(lia)) as H0.
  pose proof (Hbyte (Z.to_nat o + 1)%nat ltac:(lia)) as H1.
  pose proof (Hbyte (Z.to_nat o + 2)%nat ltac:(lia)) as H2.
  pose proof (Hbyte (Z.to_nat o + 3)%nat ltac:(lia)) as H3.
  set (b0 := nth (Z.to_nat o) digest 0) in *.
  set (b1 := nth (Z.to_nat o + 1) digest 0) in *.
  set (b2 := nth (Z.to_nat o + 2) digest 0) in *.
  set (b3 := nth (Z.to_nat o + 3) digest 0) in *.
  change 0x7F with (Z.ones 7). change 0xFF with (Z.ones 8).
  rewrite !band_ones by lia. rewrite Z.land_ones by lia.
  change (2 ^ 8) with 256. change (2 ^ 7) with 128.
  rewrite (Z.mod_small b1), (Z.mod_small b2), (Z.mod_small b3) by lia.
  pose proof (Z.mod_pos_bound b0 128 ltac:(lia)) as Hm.
  rewrite assemble_big_endian by lia.
  change (Z.of_nat codeDigits) with 6. change (Z.of_nat 6) with 6.
  apply Z.rem_mod_nonneg; [| lia].
  unfold RFC.fromBigEndian. cbn [fold_left]. lia.
Qed.





(** The reference digest is twenty bytes. *)
Lemma bigEndian_bytes (n : nat) (x : Z) :
  Forall (fun b => 0 <= b < 256) (RFC.bigEndian n x).
Proof.
  induction n as [| n IH]; constructor; [| exact IH].
  apply Z.mod_pos_bound. lia.
Qed.



Section GenerateAgainstReference.

Variable h : Host.
Hypothesis Hupper : HostUpperAscii h.



End GenerateAgainstReference.



(** * The fallback SHA-1 against the reference, chunk by chunk *)

Section Uint32.

(** The bits of a number below position 32. *)
Lemma toUint32_bits (a i : Z) :
  Z.testbit (toUint32 a) i = (i <? 32) && Z.testbit a i.
Proof. unfold toUint32. apply Z.testbit_mod_pow2. lia. Qed.

Lemma toUint32_range (a : Z) : 0 <= toUint32 a < 2 ^ 32.
Proof. unfold toUint32. apply Z.mod_pos_bound. lia. Qed.

Lemma toUint32_small (a : Z) : 0 <= a < 2 ^ 32 -> toUint32 a = a.
Proof. intros Ha. unfold toUint32. apply Z.mod_small. exact Ha. Qed.

Lemma toUint32_toInt32 (a : Z) : toUint32 (toInt32 a) = toUint32 a.
Proof.
  destruct (toInt32_wrap a) as [q ->]. unfold toUint32.
  apply Z.mod_add. lia.
Qed.

Lemma toUint32_idempotent (a : Z) : toUint32 (toUint32 a) = toUint32 a.
Proof. apply toUint32_small, toUint32_range. Qed.

Lemma toInt32_bits (a i : Z) :
  i < 32 -> Z.testbit (toInt32 a) i = Z.testbit a i.
Proof.
  intros Hi.
  destruct (Z.lt_ge_cases i 0) as [Hneg | Hpos].
  - rewrite !Z.testbit_neg_r by lia. reflexivity.
  - pose proof (toUint32_bits (toInt32 a) i) as H1.
    pose proof (toUint32_bits a i) as H2.
    rewrite toUint32_toInt32 in H1.
    destruct (Z.ltb_spec i 32); [| lia].
    simpl in H1, H2. congruence.
Qed.

(** A number is determined modulo [2^32] by its 32 low bits. *)
Lemma toUint32_ext (a b : Z) :
  (forall i, 0 <= i < 32 -> Z.testbit a i = Z.testbit b i) ->
  toUint32 a = toUint32 b.
Proof.
  intros Hbits. apply Z.bits_inj'. intros i Hi.
  rewrite !toUint32_bits.
  destruct (Z.ltb_spec i 32) as [Hlt | Hge]; [| reflexivity].
  simpl. apply Hbits. lia.
Qed.

Lemma toUint32_bor (a b : Z) :
  toUint32 (bor a b) = Z.lor (toUint32 a) (toUint32 b).
Proof.
  apply Z.bits_inj'. intros i Hi. unfold bor.
  rewrite Z.lor_spec, !toUint32_bits, Z.lor_spec.
  destruct (Z.ltb_spec i 32) as [Hlt | Hge]; [| reflexivity].
  rewrite !toInt32_bits by lia. reflexivity.
Qed.

Lemma toUint32_band (a b : Z) :
  toUint32 (band a b) = Z.land (toUint32 a) (toUint32 b).
Proof.
  apply Z.bits_inj'. intros i Hi. unfold band.
  rewrite Z.land_spec, !toUint32_bits, Z.land_spec.
  destruct (Z.ltb_spec i 32) as [Hlt | Hge]; [| reflexivity].
  rewrite !toInt32_bits by lia. reflexivity.
Qed.

Lemma toUint32_bxor (a b : Z) :
  toUint32 (bxor a b) = Z.lxor (toUint32 a) (toUint32 b).
Proof.
  apply Z.bits_inj'. intros i Hi. unfold bxor.
  rewrite Z.lxor_spec, !toUint32_bits, Z.lxor_spec.
  destruct (Z.ltb_spec i 32) as [Hlt | Hge]; [| reflexivity].
  rewrite !toInt32_bits by lia. reflexivity.
Qed.

Lemma toUint32_bnot (a : Z) :
  toUint32 (bnot a) = RFC.word (Z.lnot (toUint32 a)).
Proof.
  apply Z.bits_inj'. intros i Hi. unfold bnot, RFC.word.
  fold (toUint32 (Z.lnot (toUint32 a))).
  rewrite !toUint32_bits, !Z.lnot_spec by lia.
  destruct (Z.ltb_spec i 32) as [Hlt | Hge]; [| reflexivity].
  rewrite toInt32_bits, toUint32_bits by lia.
  destruct (Z.ltb_spec i 32); [| lia]. reflexivity.
Qed.

Lemma toUint32_shl (a n : Z) :
  0 <= n < 32 -> toUint32 (shl a n) = RFC.word (Z.shiftl (toUint32 a) n).
Proof.
  intros Hn. unfold shl, RFC.word.
  fold (toUint32 (Z.shiftl (toUint32 a) n)).
  rewrite toUint32_toInt32.
  replace (toUint32 n mod 32) with n
    by (rewrite toUint32_small, Z.mod_small; lia).
  apply toUint32_ext. intros i Hi.
  rewrite !Z.shiftl_spec by lia.
  rewrite toInt32_bits, toUint32_bits by lia.
  destruct (Z.ltb_spec (i - n) 32); [| lia]. reflexivity.
Qed.

Lemma ushr_shiftr (a n : Z) :
  0 <= n < 32 -> ushr a n = Z.shiftr (toUint32 a) n.
Proof.
  intros Hn. unfold ushr.
  rewrite (toUint32_small n), Z.mod_small by lia. reflexivity.
Qed.

Lemma ushr_zero (a : Z) : ushr a 0 = toUint32 a.
Proof. rewrite ushr_shiftr by lia. apply Z.shiftr_0_r. Qed.

Lemma shiftr_uint32 (x n : Z) :
  0 <= n -> 0 <= x < 2 ^ 32 -> 0 <= Z.shiftr x n < 2 ^ 32.
Proof.
  intros Hn Hx. rewrite Z.shiftr_div_pow2 by lia.
  assert (0 < 2 ^ n) by (apply Z.pow_pos_nonneg; lia).
  split; [apply Z.div_pos; lia |].
  apply Z.div_lt_upper_bound; [lia |]. nia.
Qed.

(** [rotateLeft] reads its operand modulo [2^32] and is the rotation of
    the reference. *)
Lemma rotateLeft_rotl (a n : Z) :
  0 < n < 32 -> rotateLeft a n = RFC.rotl (toUint32 a) n.
Proof.
  intros Hn. unfold rotateLeft, RFC.rotl.
  rewrite ushr_zero, toUint32_bor, toUint32_shl by lia.
  rewrite (ushr_shiftr a (32 - n)) by lia.
  rewrite (toUint32_small (Z.shiftr _ _))
    by (apply shiftr_uint32; [lia | apply toUint32_range]).
  unfold RFC.word.
  fold (toUint32 (Z.shiftl (toUint32 a) n)).
  fold (toUint32 (Z.lor (Z.shiftl (toUint32 a) n)
                        (Z.shiftr (toUint32 a) (32 - n)))).
  apply Z.bits_inj'. intros i Hi.
  rewrite Z.lor_spec, !toUint32_bits, Z.lor_spec.
  destruct (Z.ltb_spec i 32) as [Hlt | Hge]; [reflexivity |].
  cbn [andb orb]. symmetry.
  rewrite Z.shiftr_spec by lia.
  rewrite toUint32_bits.
  destruct (Z.ltb_spec (i + (32 - n)) 32); [lia | reflexivity].
Qed.

Lemma toUint32_add (a b : Z) :
  toUint32 (a + b) = toUint32 (toUint32 a + toUint32 b).
Proof. unfold toUint32. apply Zplus_mod. Qed.

End Uint32.


(** ** The words of a chunk *)

Lemma nth_map_inside {A B : Type} (f : A -> B) (l : list A) (d : A) (d' : B)
    (i : nat) :
  (i < length l)%nat -> nth i (map f l) d' = f (nth i l d).
Proof.
  intros Hi. rewrite (nth_indep _ d' (f d)) by (rewrite length_map; exact Hi).
  apply map_nth.
Qed.

Lemma word_of_bytes (b0 b1 b2 b3 : Z) :
  0 <= b0 < 256 -> 0 <= b1 < 256 -> 0 <= b2 < 256 -> 0 <= b3 < 256 ->
  toUint32 (bor (bor (bor (shl b0 24) (shl b1 16)) (shl b2 8)) b3)
  = RFC.fromBigEndian [b0; b1; b2; b3].
Proof.
  intros H0 H1 H2 H3.
  rewrite !toUint32_bor, !toUint32_shl by lia.
  rewrite (toUint32_small b0), (toUint32_small b1), (toUint32_small b2),
    (toUint32_small b3) by lia.
  unfold RFC.word. rewrite !Z.shiftl_mul_pow2 by lia.
  rewrite !Z.mod_small by lia.
  rewrite (lor_disjoint b0 (b1 * 2 ^ 16) 24) by lia.
  replace (b0 * 2 ^ 24 + b1 * 2 ^ 16) with ((b0 * 2 ^ 8 + b1) * 2 ^ 16)
    by lia.
  rewrite (lor_disjoint _ (b2 * 2 ^ 8) 16) by lia.
  replace ((b0 * 2 ^ 8 + b1) * 2 ^ 16 + b2 * 2 ^ 8)
    with ((b0 * 2 ^ 16 + b1 * 2 ^ 8 + b2) * 2 ^ 8) by lia.
  rewrite lor_disjoint by lia.
  unfold RFC.fromBigEndian. cbn [fold_left]. lia.
Qed.

Lemma toWords_length (n : nat) :
  forall bytes, (length bytes <= n)%nat ->
                length (RFC.toWords bytes) = (length bytes / 4)%nat.
Proof.
  induction n as [| n IH]; intros bytes Hn.
  - destruct bytes; [reflexivity | simpl in Hn; lia].
  - destruct bytes as [| b0 [| b1 [| b2 [| b3 rest]]]]; try reflexivity.
    cbn [RFC.toWords length]. rewrite IH by (simpl in Hn; lia).
    change (S (S (S (S (length rest))))) with (4 + length rest)%nat.
    replace (4 + length rest)%nat with (length rest + 1 * 4)%nat by lia.
    rewrite Nat.div_add by lia. lia.
Qed.

(** The [i]-th word of a message is made of its bytes [4i] to [4i+3]. *)
Lemma toWords_nth (i : nat) :
  forall bytes,
    (4 * i + 3 < length bytes)%nat ->
    nth i (RFC.toWords bytes) 0
    = RFC.fromBigEndian
        [nth (4 * i) bytes 0; nth (4 * i + 1) bytes 0;
         nth (4 * i + 2) bytes 0; nth (4 * i + 3) bytes 0].
Proof.
  induction i as [| i IH]; intros bytes Hlen.
  - destruct bytes as [| b0 [| b1 [| b2 [| b3 rest]]]];
      simpl in Hlen; try lia. reflexivity.
  - destruct bytes as [| b0 [| b1 [| b2 [| b3 rest]]]];
      simpl in Hlen; try lia.
    cbn [RFC.toWords nth]. rewrite IH by lia.
    replace (4 * S i)%nat with (S (S (S (S (4 * i))))) by lia.
    reflexivity.
Qed.

(** The sixteen words [chunkWords] assembles are, modulo [2^32], the
    words of the reference at the same place. *)
Lemma chunkWords_block (paddedData : list Z) (k : nat) :
  Forall (fun b => 0 <= b < 256) paddedData ->
  (64 * (k + 1) <= length paddedData)%nat ->
  map toUint32 (chunkWords paddedData (Z.of_nat k * 64))
  = firstn 16 (skipn (16 * k) (RFC.toWords paddedData)).
Proof.
  intros Hbytes Hlen.
  assert (Hbyte : forall i, (i < length paddedData)%nat ->
                            0 <= nth i paddedData 0 < 256).
  { intros i Hi. rewrite Forall_forall in Hbytes.
    apply Hbytes. apply nth_In. exact Hi. }
  assert (Hwords : (16 * (k + 1) <= length (RFC.toWords paddedData))%nat).
  { rewrite (toWords_length _ _ (Nat.le_refl _)).
    apply Nat.div_le_lower_bound; lia. }
  apply (nth_ext _ _ 0 0).
  - rewrite length_map. unfold chunkWords.
    rewrite length_map, length_seq, length_firstn, length_skipn. lia.
  - intros i Hi. unfold chunkWords in Hi.
    rewrite !length_map, length_seq in Hi.
    rewrite nth_firstn. destruct (Nat.ltb_spec i 16) as [_ | ?]; [| lia].
    rewrite nth_skipn, toWords_nth by lia.
    rewrite (nth_map_inside toUint32 _ 0)
      by (unfold chunkWords; rewrite length_map, length_seq; lia).
    unfold chunkWords.
    rewrite (nth_map_inside _ _ 0%nat) by (rewrite length_seq; lia).
    rewrite seq_nth by lia. cbn zeta.
    rewrite !at_inside by lia.
    replace (Z.to_nat (Z.of_nat k * 64 + Z.of_nat (0 + i) * 4))
      with (4 * (16 * k + i))%nat by lia.
    replace (Z.to_nat (Z.of_nat k * 64 + Z.of_nat (0 + i) * 4 + 1))
      with (4 * (16 * k + i) + 1)%nat by lia.
    replace (Z.to_nat (Z.of_nat k * 64 + Z.of_nat (0 + i) * 4 + 2))
      with (4 * (16 * k + i) + 2)%nat by lia.
    replace (Z.to_nat (Z.of_nat k * 64 + Z.of_nat (0 + i) * 4 + 3))
      with (4 * (16 * k + i) + 3)%nat by lia.
    apply word_of_bytes; apply Hbyte; lia.
Qed.


(** ** The message schedule *)

Lemma rotl_range (x n : Z) : 0 <= RFC.rotl x n < 2 ^ 32.
Proof. unfold RFC.rotl, RFC.word. apply Z.mod_pos_bound. lia. Qed.

Lemma extend_schedule (n : nat) :
  forall w : list Z,
    (16 <= length w)%nat ->
    map toUint32
      (fold_left
         (fun w i =>
            let i := Z.of_nat i in
            w ++ [rotateLeft
                    (bxor (bxor (bxor (at_ w (i - 3)) (at_ w (i - 8)))
                                (at_ w (i - 14)))
                          (at_ w (i - 16))) 1])
         (seq (length w) n) w)
    = rev (RFC.schedule n (rev (map toUint32 w))).
Proof.
  induction n as [| n IH]; intros w Hlen.
  - cbn [seq fold_left RFC.schedule]. rewrite rev_involutive. reflexivity.
  - cbn [seq fold_left RFC.schedule].
    set (x := rotateLeft _ 1).
    replace (S (length w)) with (length (w ++ [x]))
      by (rewrite length_app; simpl; lia).
    rewrite IH by (rewrite length_app; simpl; lia).
    do 2 f_equal. rewrite map_app, rev_app_distr. cbn [map rev app].
    f_equal. unfold x.
    rewrite rotateLeft_rotl by lia.
    rewrite (toUint32_small (RFC.rotl _ _)) by apply rotl_range.
    f_equal. rewrite !toUint32_bxor.
    assert (Hnth : forall j, (j < 16)%nat ->
               nth j (rev (map toUint32 w)) 0
               = toUint32 (at_ w (Z.of_nat (length w) - Z.of_nat (S j)))).
    { intros j Hj. rewrite rev_nth by (rewrite length_map; lia).
      rewrite length_map, (nth_map_inside toUint32 _ 0) by lia.
      rewrite at_inside by lia. do 2 f_equal. lia. }
    rewrite (Hnth 2%nat), (Hnth 7%nat), (Hnth 13%nat), (Hnth 15%nat) by lia.
    reflexivity.
Qed.

Lemma extendWords_schedule (w16 : list Z) :
  length w16 = 16%nat ->
  map toUint32 (extendWords w16)
  = rev (RFC.schedule 64 (rev (map toUint32 w16))).
Proof.
  intros Hlen. unfold extendWords. rewrite <- Hlen.
  apply extend_schedule. lia.
Qed.

Lemma schedule_length (n : nat) :
  forall recent, length (RFC.schedule n recent) = (n + length recent)%nat.
Proof.
  induction n as [| n IH]; intros recent; [reflexivity |].
  cbn [RFC.schedule]. rewrite IH. simpl. lia.
Qed.

Lemma extendWords_length (w16 : list Z) :
  length w16 = 16%nat -> length (extendWords w16) = 80%nat.
Proof.
  intros Hlen.
  rewrite <- (length_map toUint32), extendWords_schedule by exact Hlen.
  rewrite length_rev, schedule_length, length_rev, length_map, Hlen.
  reflexivity.
Qed.

(** ** The eighty rounds *)

Lemma toUint32_sum (a f e k w : Z) :
  toUint32 (a + f + e + k + w)
  = RFC.word (a + toUint32 f + e + k + toUint32 w).
Proof.
  unfold toUint32, RFC.word.
  pose proof (Z.div_mod f (2 ^ 32) ltac:(lia)) as Hf.
  pose proof (Z.div_mod w (2 ^ 32) ltac:(lia)) as Hw.
  replace (a + f + e + k + w)
    with (a + f mod 2 ^ 32 + e + k + w mod 2 ^ 32
          + (f / 2 ^ 32 + w / 2 ^ 32) * 2 ^ 32) by lia.
  apply Z.mod_add. lia.
Qed.

(** One iteration of the main loop is one round of the reference. *)
Lemma round_step (w : list Z) (a b c d e : Z) (i : nat) :
  uint32State (State a b c d e) ->
  stateHash (round w (State a b c d e) i)
  = (RFC.word (RFC.rotl a 5 + RFC.f i b c d + e + RFC.k i
               + toUint32 (at_ w (Z.of_nat i))),
     a, RFC.rotl b 30, c, d)
  /\ uint32State (round w (State a b c d e) i).
Proof.
  intros (Ha & Hb & Hc & Hd & He). cbn [s0 s1 s2 s3 s4] in *.
  assert (Ea := toUint32_small a Ha). assert (Eb := toUint32_small b Hb).
  assert (Ec := toUint32_small c Hc). assert (Ed := toUint32_small d Hd).
  assert (Etemp : forall f k,
             toUint32 f = RFC.f i b c d -> k = RFC.k i ->
             ushr (rotateLeft a 5 + f + e + k + at_ w (Z.of_nat i)) 0
             = RFC.word (RFC.rotl a 5 + RFC.f i b c d + e + RFC.k i
                         + toUint32 (at_ w (Z.of_nat i)))).
  { intros f k Hf Hk. rewrite ushr_zero, toUint32_sum, Hf, Hk.
    rewrite rotateLeft_rotl, Ea by lia. reflexivity. }
  assert (Hfk : exists f k,
             round w (State a b c d e) i
             = State (ushr (rotateLeft a 5 + f + e + k + at_ w (Z.of_nat i)) 0)
                     a (rotateLeft b 30) c d
             /\ toUint32 f = RFC.f i b c d /\ k = RFC.k i).
  { unfold round, RFC.f, RFC.k.
    destruct (Z.ltb_spec (Z.of_nat i) 20) as [H20 | H20];
      [destruct (Nat.ltb_spec i 20); [| lia] |
       destruct (Nat.ltb_spec i 20); [lia |];
       destruct (Z.ltb_spec (Z.of_nat i) 40) as [H40 | H40];
       [destruct (Nat.ltb_spec i 40); [| lia] |
        destruct (Nat.ltb_spec i 40); [lia |];
        destruct (Z.ltb_spec (Z.of_nat i) 60) as [H60 | H60];
        [destruct (Nat.ltb_spec i 60); [| lia] |
         destruct (Nat.ltb_spec i 60); [lia |]]]];
      do 2 eexists; (split; [reflexivity |]); (split; [| reflexivity]).
    - rewrite toUint32_bor, !toUint32_band, toUint32_bnot, Eb, Ec, Ed.
      reflexivity.
    - rewrite !toUint32_bxor, Eb, Ec, Ed. reflexivity.
    - rewrite !toUint32_bor, !toUint32_band, Eb, Ec, Ed. reflexivity.
    - rewrite !toUint32_bxor, Eb, Ec, Ed. reflexivity. }
  destruct Hfk as (f & k & -> & Hf & Hk).
  rewrite (Etemp f k Hf Hk).
  rewrite rotateLeft_rotl, Eb by lia.
  split; [reflexivity |].
  unfold uint32State. cbn [s0 s1 s2 s3 s4].
  repeat split; try lia; try apply rotl_range;
    unfold RFC.word; apply Z.mod_pos_bound; lia.
Qed.

Lemma rounds_agree (w : list Z) :
  forall (rest front : list Z) (st : state),
    map toUint32 w = front ++ rest ->
    uint32State st ->
    stateHash (fold_left (round w) (seq (length front) (length rest)) st)
    = RFC.rounds (length front) rest (stateHash st)
    /\ uint32State (fold_left (round w) (seq (length front) (length rest)) st).
Proof.
  induction rest as [| wt rest IH]; intros front st Hw Hst.
  - split; [reflexivity | exact Hst].
  - cbn [length seq fold_left RFC.rounds].
    destruct st as [a b c d e].
    destruct (round_step w a b c d e (length front) Hst) as [Hstep Hrange].
    assert (Hwt : toUint32 (at_ w (Z.of_nat (length front))) = wt).
    { assert (Hlen : length w = (length front + S (length rest))%nat).
      { rewrite <- (length_map toUint32 w), Hw, length_app. reflexivity. }
      rewrite at_inside by lia. rewrite Nat2Z.id.
      rewrite <- (nth_map_inside toUint32 w 0 0) by lia.
      rewrite Hw. apply nth_middle. }
    rewrite Hwt in Hstep.
    replace (S (length front)) with (length (front ++ [wt]))
      by (rewrite length_app; simpl; lia).
    destruct (IH (front ++ [wt]) (round w (State a b c d e) (length front)))
      as [Hrest Hrange'].
    + rewrite <- app_assoc. exact Hw.
    + exact Hrange.
    + split; [| exact Hrange'].
      rewrite Hrest, Hstep. cbn [stateHash s0 s1 s2 s3 s4].
      replace (length (front ++ [wt])) with (S (length front))
        by (rewrite length_app; simpl; lia).
      reflexivity.
Qed.


(** ** One chunk, all chunks *)

Lemma processChunk_compress (paddedData : list Z) (k : nat) (st : state) :
  Forall (fun b => 0 <= b < 256) paddedData ->
  (64 * (k + 1) <= length paddedData)%nat ->
  uint32State st ->
  stateHash (processChunk paddedData st (Z.of_nat k * 64))
  = RFC.compress (stateHash st)
      (firstn 16 (skipn (16 * k) (RFC.toWords paddedData)))
  /\ uint32State (processChunk paddedData st (Z.of_nat k * 64)).
Proof.
  intros Hbytes Hlen Hst.
  unfold processChunk, RFC.compress.
  rewrite <- (chunkWords_block paddedData k Hbytes Hlen).
  assert (H16 : length (chunkWords paddedData (Z.of_nat k * 64)) = 16%nat)
    by (unfold chunkWords; rewrite length_map, length_seq; reflexivity).
  rewrite <- (extendWords_schedule _ H16).
  set (w := extendWords (chunkWords paddedData (Z.of_nat k * 64))).
  assert (H80 : length (map toUint32 w) = 80%nat)
    by (rewrite length_map; apply extendWords_length; exact H16).
  destruct (rounds_agree w (map toUint32 w) [] st eq_refl Hst)
    as [Hrounds Hrange].
  rewrite H80 in Hrounds, Hrange. cbn [length] in Hrounds, Hrange.
  destruct (fold_left (round w) (seq 0 80) st) as [a b c d e].
  rewrite <- Hrounds.
  destruct st as [h0 h1 h2 h3 h4].
  cbn [stateHash s0 s1 s2 s3 s4]. rewrite !ushr_zero.
  split; [reflexivity |].
  unfold uint32State. cbn [s0 s1 s2 s3 s4].
  repeat split; apply toUint32_range.
Qed.

Lemma blocks_succ (n : nat) (words : list Z) :
  RFC.blocks (S n) words = firstn 16 words :: RFC.blocks n (skipn 16 words).
Proof. reflexivity. Qed.

Lemma fold_left_cons {A B : Type} (f : A -> B -> A) (x : B) (l : list B)
    (a : A) :
  fold_left f (x :: l) a = fold_left f l (f a x).
Proof. reflexivity. Qed.

Lemma chunks_agree (paddedData : list Z) (n : nat) :
  Forall (fun b => 0 <= b < 256) paddedData ->
  forall (k : nat) (st : state),
    (64 * (k + n) <= length paddedData)%nat ->
    uint32State st ->
    stateHash
      (fold_left (processChunk paddedData)
                 (map (fun j => Z.of_nat j * 64) (seq k n)) st)
    = fold_left RFC.compress
        (RFC.blocks n (skipn (16 * k) (RFC.toWords paddedData)))
        (stateHash st)
    /\ uint32State
         (fold_left (processChunk paddedData)
                    (map (fun j => Z.of_nat j * 64) (seq k n)) st).
Proof.
  intros Hbytes. induction n as [| n IH]; intros k st Hlen Hst.
  - split; [reflexivity | exact Hst].
  - rewrite <- cons_seq, map_cons, blocks_succ, !fold_left_cons.
    destruct (processChunk_compress paddedData k st Hbytes ltac:(lia) Hst)
      as [Hchunk Hrange].
    destruct (IH (S k) (processChunk paddedData st (Z.of_nat k * 64))
                ltac:(lia) Hrange) as [Hrest Hrange'].
    split; [| exact Hrange'].
    rewrite Hrest, Hchunk, skipn_skipn.
    replace (16 + 16 * k)%nat with (16 * S k)%nat by lia.
    reflexivity.
Qed.

(** ** The digest bytes *)

Lemma hashBytes_bigEndian (st : state) :
  uint32State st ->
  hashBytes st
  = (let '(h0, h1, h2, h3, h4) := stateHash st in
     flat_map (RFC.bigEndian 4) [h0; h1; h2; h3; h4]).
Proof.
  intros (H0 & H1 & H2 & H3 & H4). destruct st as [h0 h1 h2 h3 h4].
  cbn [s0 s1 s2 s3 s4 stateHash] in *.
  unfold hashBytes. cbn [s0 s1 s2 s3 s4 seq flat_map map app].
  change (at_ [h0; h1; h2; h3; h4] (Z.of_nat 0)) with h0.
  change (at_ [h0; h1; h2; h3; h4] (Z.of_nat 1)) with h1.
  change (at_ [h0; h1; h2; h3; h4] (Z.of_nat 2)) with h2.
  change (at_ [h0; h1; h2; h3; h4] (Z.of_nat 3)) with h3.
  change (at_ [h0; h1; h2; h3; h4] (Z.of_nat 4)) with h4.
  rewrite !length_byte by (try assumption; lia).
  reflexivity.
Qed.

(** X5: [sha1Simple] hashes the message as it has padded it exactly as the
    reference hashes a padded message: the chunks, the schedule, the
    rounds and the output are those of RFC 3174. *)
Theorem sha1Simple_digest (data : list Z) :
  Forall (fun b => 0 <= b < 256) data ->
  Z.of_nat (length data) * 8 < 2 ^ 32 ->
  sha1Simple data = RFC.digest (sha1Pad data).
Proof.
  intros Hbytes Hsmall.
  assert (Hpadded : Forall (fun b => 0 <= b < 256) (sha1Pad data)).
  { rewrite (sha1Pad_shape data Hsmall).
    repeat (apply Forall_app; split); try apply bigEndian_bytes.
    - exact Hbytes.
    - repeat constructor; lia.
    - apply Forall_forall. intros x Hx. apply repeat_spec in Hx. lia. }
  assert (Hlen : exists n, length (sha1Pad data) = (64 * n)%nat).
  { rewrite (sha1Pad_shape data Hsmall), !length_app, repeat_length.
    cbn [length RFC.bigEndian].
    set (len := Z.of_nat (length data)).
    exists (Z.to_nat ((len + 1 + (55 - len) mod 64 + 8) / 64)).
    pose proof (Z.mod_pos_bound (55 - len) 64 ltac:(lia)) as Hr.
    pose proof (Z.div_mod (55 - len) 64 ltac:(lia)) as Hq.
    assert (Hdiv : len + 1 + (55 - len) mod 64 + 8
                   = (1 - (55 - len) / 64) * 64) by lia.
    rewrite Hdiv, Z.div_mul by lia.
    unfold len in *. lia. }
  destruct Hlen as [n Hn].
  unfold sha1Simple, RFC.digest.
  set (paddedData := sha1Pad data) in *.
  assert (Hwords : length (RFC.toWords paddedData) = (16 * n)%nat).
  { rewrite (toWords_length _ _ (Nat.le_refl _)), Hn.
    replace (64 * n)%nat with ((16 * n) * 4)%nat by lia.
    apply Nat.div_mul. lia. }
  assert (Hinit : uint32State initialHash)
    by (unfold uint32State; cbn; lia).
  unfold chunkOffsets. rewrite Hwords, Hn.
  replace ((64 * n + 63) / 64)%nat with n
    by (apply Nat.div_unique with (r := 63%nat); lia).
  replace (16 * n / 16)%nat with n
    by (apply Nat.div_unique with (r := 0%nat); lia).
  destruct (chunks_agree paddedData n Hpadded 0%nat initialHash
              ltac:(lia) Hinit) as [Hfold Hrange].
  rewrite (hashBytes_bigEndian _ Hrange), Hfold.
  reflexivity.
Qed.


(** * The fallback HMAC against RFC 2104 *)

Lemma hashBytes_output (st : state) :
  length (hashBytes st) = 20%nat
  /\ Forall (fun b => 0 <= b < 256) (hashBytes st).
Proof.
  split; [reflexivity |].
  unfold hashBytes. apply Forall_flat_map, Forall_forall. intros i _.
  apply Forall_map, Forall_forall. intros j _.
  unfold toUint8. apply Z.mod_pos_bound. lia.
Qed.

Lemma sha1Simple_output (data : list Z) :
  length (sha1Simple data) = 20%nat
  /\ Forall (fun b => 0 <= b < 256) (sha1Simple data).
Proof. unfold sha1Simple. apply hashBytes_output. Qed.

Lemma lxor_byte (b c : Z) :
  0 <= b < 256 -> 0 <= c < 256 -> toUint8 (bxor b c) = Z.lxor b c.
Proof.
  intros Hb Hc. unfold bxor, toUint8.
  rewrite !toInt32_small by lia.
  change 256 with (2 ^ 8).
  apply Z.bits_inj'. intros i Hi.
  rewrite Z.testbit_mod_pow2 by lia.
  destruct (Z.ltb_spec i 8) as [Hlt | Hge]; [reflexivity |].
  rewrite Z.lxor_spec.
  rewrite <- (Z.mod_small b (2 ^ 8)), <- (Z.mod_small c (2 ^ 8)) by lia.
  rewrite !Z.mod_pow2_bits_high by lia. reflexivity.
Qed.

Lemma xorPad_map (paddedKey : list Z) (c : Z) :
  length paddedKey = blockSize ->
  Forall (fun b => 0 <= b < 256) paddedKey ->
  0 <= c < 256 ->
  xorPad paddedKey c = map (fun b => Z.lxor b c) paddedKey.
Proof.
  intros Hlen Hbytes Hc. unfold xorPad.
  apply (nth_ext _ _ 0 0).
  - rewrite !length_map, length_seq. symmetry. exact Hlen.
  - intros i Hi. rewrite length_map, length_seq in Hi.
    rewrite (nth_map_inside _ _ 0%nat) by (rewrite length_seq; exact Hi).
    rewrite (nth_map_inside _ _ 0) by lia.
    rewrite seq_nth by exact Hi. rewrite at_inside by lia.
    cbn [Nat.add]. rewrite Nat2Z.id.
    apply lxor_byte; [| exact Hc].
    rewrite Forall_forall in Hbytes. apply Hbytes, nth_In. lia.
Qed.

Lemma arraySet_append (a b : list Z) :
  arraySet (arraySet (newUint8Array (length a + length b)) a 0) b (length a)
  = a ++ b.
Proof.
  rewrite arraySet_zeros by lia.
  replace (length a + length b - length a)%nat with (length b) by lia.
  unfold arraySet.
  rewrite firstn_app, firstn_all, Nat.sub_diag. cbn [firstn].
  rewrite app_nil_r. f_equal.
  rewrite skipn_all2 by (rewrite length_app, repeat_length; lia).
  apply app_nil_r.
Qed.

(** [hmacSha1Simple] is the construction of RFC 2104 over [sha1Simple]:
    the key hashed when longer than a block, padded with zeros, the two
    pads, the two nested hashes. *)
Theorem hmacSha1Simple_rfc2104 (key message : list Z) :
  Forall (fun b => 0 <= b < 256) key ->
  hmacSha1Simple key message = RFC.hmacWith sha1Simple key message.
Proof.
  intros Hkey. unfold hmacSha1Simple, RFC.hmacWith.
  change (64 <? length key)%nat with (blockSize <? length key)%nat.
  set (key' := if (blockSize <? length key)%nat then sha1Simple key else key).
  assert (Hkey' : (length key' <= blockSize)%nat
                  /\ Forall (fun b => 0 <= b < 256) key').
  { unfold key'.
    destruct (Nat.ltb_spec blockSize (length key)) as [Hlong | Hshort].
    - destruct (sha1Simple_output key) as [-> Hb].
      split; [unfold blockSize; lia | exact Hb].
    - split; [exact Hshort | exact Hkey]. }
  destruct Hkey' as [Hlen Hbytes].
  rewrite (arraySet_zeros blockSize key') by exact Hlen.
  set (padded := key' ++ repeat 0 (blockSize - length key')).
  assert (Hpadded : length padded = blockSize
                    /\ Forall (fun b => 0 <= b < 256) padded).
  { unfold padded. split.
    - rewrite length_app, repeat_length. lia.
    - apply Forall_app. split; [exact Hbytes |].
      apply Forall_forall. intros x Hx. apply repeat_spec in Hx. lia. }
  destruct Hpadded as [Hplen Hpbytes].
  rewrite !xorPad_map by (try assumption; lia).
  rewrite !arraySet_append.
  reflexivity.
Qed.

(** * Code generation on the fallback path *)



(** The reference padding, for comparison with [sha1Pad_shape]: the high
    word of the length field is zero. *)
Lemma rfc_pad_shape (message : list Z) :
  Z.of_nat (length message) * 8 < 2 ^ 32 ->
  RFC.pad message
  = message ++ [128]
      ++ repeat 0 (Z.to_nat ((55 - Z.of_nat (length message)) mod 64))
      ++ [0; 0; 0; 0]
      ++ RFC.bigEndian 4 (Z.of_nat (length message) * 8).
Proof.
  intros Hsmall. unfold RFC.pad. do 3 f_equal.
  replace (8 * Z.of_nat (length message))
    with (Z.of_nat (length message) * 8) by lia.
  set (m := Z.of_nat (length message) * 8) in *.
  assert (Hm : 0 <= m) by (unfold m; lia).
  change (RFC.bigEndian 8 m)
    with ([(m / 256 ^ 7) mod 256; (m / 256 ^ 6) mod 256;
           (m / 256 ^ 5) mod 256; (m / 256 ^ 4) mod 256]
            ++ RFC.bigEndian 4 m).
  f_equal.
  rewrite !(Z.div_small m) by lia. reflexivity.
Qed.

Section Fallback.

(** A host without [crypto.subtle]. *)
Variable h : Host.
Hypothesis Hupper : HostUpperAscii h.
Hypothesis Hsubtle : cryptoSubtle h = None.


End Fallback.

(** * Further properties of the methods of [TOTP] *)

(** ** [intToBytes] *)

Lemma fromBigEndian_from (n : nat) :
  forall x acc,
    fold_left (fun acc b => acc * 256 + b) (RFC.bigEndian n x) acc
    = acc * 256 ^ Z.of_nat n + x mod 256 ^ Z.of_nat n.
Proof.
  induction n as [| n IH]; intros x acc.
  - cbn [RFC.bigEndian fold_left]. change (256 ^ Z.of_nat 0) with 1.
    rewrite Z.mod_1_r. lia.
  - cbn [RFC.bigEndian fold_left]. rewrite IH.
    replace (Z.of_nat (S n)) with (Z.of_nat n + 1) by lia.
    rewrite Z.pow_add_r by lia. change (256 ^ 1) with 256.
    assert (Hpos : 0 < 256 ^ Z.of_nat n) by (apply Z.pow_pos_nonneg; lia).
    rewrite (Z.rem_mul_r x (256 ^ Z.of_nat n) 256) by lia.
    lia.
Qed.

(** X1: [intToBytes] returns eight bytes, the big-endian digits of the
    counter modulo [2^64]: read back they give the counter itself when it
    lies between 0 and [2^64 - 1]. *)
Theorem intToBytes_round_trip (int : Z) :
  length (intToBytes int) = 8%nat
  /\ Forall (fun b => 0 <= b < 256) (intToBytes int)
  /\ RFC.fromBigEndian (intToBytes int) = int mod 2 ^ 64
  /\ (0 <= int < 2 ^ 64 -> RFC.fromBigEndian (intToBytes int) = int).
Proof.
  rewrite intToBytes_bigEndian.
  assert (Hvalue : RFC.fromBigEndian (RFC.bigEndian 8 int) = int mod 2 ^ 64).
  { unfold RFC.fromBigEndian. rewrite fromBigEndian_from.
    change (256 ^ Z.of_nat 8) with (2 ^ 64). lia. }
  split; [reflexivity |]. split; [apply bigEndian_bytes |].
  split; [exact Hvalue |].
  intros Hrange. rewrite Hvalue. apply Z.mod_small. exact Hrange.
Qed.

(** ** [rotateLeft] *)

Lemma rotl_bits (x n i : Z) :
  0 < n < 32 -> 0 <= x < 2 ^ 32 -> 0 <= i < 32 ->
  Z.testbit (RFC.rotl x n) i
  = Z.testbit x (if i <? n then i - n + 32 else i - n).
Proof.
  intros Hn Hx Hi. unfold RFC.rotl, RFC.word.
  rewrite Z.testbit_mod_pow2 by lia.
  destruct (Z.ltb_spec i 32) as [_ | ?]; [| lia]. cbn [andb].
  rewrite Z.lor_spec, Z.shiftl_spec, Z.shiftr_spec by lia.
  destruct (Z.ltb_spec i n) as [Hlow | Hhigh].
  - rewrite (Z.testbit_neg_r x (i - n)) by lia. cbn [orb].
    f_equal. lia.
  - rewrite <- (Z.mod_small x (2 ^ 32)) at 2 by exact Hx.
    rewrite (Z.mod_pow2_bits_high x 32 (i + (32 - n))) by lia.
    apply orb_false_r.
Qed.

(** X2: for a count between 1 and 31, [rotateLeft] reads its operand as
    an unsigned 32-bit number, returns one, and is undone by the rotation
    by the complementary count. *)
Theorem rotateLeft_inverse (a n : Z) :
  0 < n < 32 ->
  0 <= rotateLeft a n < 2 ^ 32
  /\ rotateLeft a n = rotateLeft (toUint32 a) n
  /\ rotateLeft (rotateLeft a n) (32 - n) = toUint32 a.
Proof.
  intros Hn.
  pose proof (toUint32_range a) as Ha.
  rewrite !rotateLeft_rotl by lia.
  rewrite toUint32_idempotent.
  split; [apply rotl_range |]. split; [reflexivity |].
  rewrite (toUint32_small (RFC.rotl _ _)) by apply rotl_range.
  rewrite <- (toUint32_small (RFC.rotl (RFC.rotl _ _) _))
    by apply rotl_range.
  rewrite <- (toUint32_idempotent a) at 2.
  apply toUint32_ext. intros i Hi.
  rewrite rotl_bits by (try lia; apply rotl_range).
  destruct (Z.ltb_spec i (32 - n)) as [Hlow | Hhigh].
  - rewrite rotl_bits by lia.
    destruct (Z.ltb_spec (i - (32 - n) + 32) n); [lia |].
    f_equal. lia.
  - rewrite rotl_bits by lia.
    destruct (Z.ltb_spec (i - (32 - n)) n); [| lia].
    f_equal. lia.
Qed.

Lemma rotateLeft_inverse_witness :
  0 < 5 < 32 /\ rotateLeft (rotateLeft 0x67452301 5) (32 - 5) = 0x67452301.
Proof.
  split; [lia |].
  apply (rotateLeft_inverse 0x67452301 5). lia.
Defined.

(** ** [concatArrays] *)


(** ** The padding and the digest of [sha1Simple] *)

(** X4: for a message of bytes, shorter than 2^29 bytes, the padded message
    is made of bytes, its length is a multiple of 64, and it is the message,
    [0x80], the zeros of the reference padding, then the four big-endian
    bytes of the bit length written twice. *)
Theorem sha1Pad_layout (data : list Z) :
  Forall (fun b => 0 <= b < 256) data ->
  Z.of_nat (length data) * 8 < 2 ^ 32 ->
  let zeros := Z.to_nat ((55 - Z.of_nat (length data)) mod 64) in
  let lengthWord := RFC.bigEndian 4 (Z.of_nat (length data) * 8) in
  sha1Pad data = data ++ [128] ++ repeat 0 zeros ++ lengthWord ++ lengthWord
  /\ RFC.pad data
     = data ++ [128] ++ repeat 0 zeros ++ [0; 0; 0; 0] ++ lengthWord
  /\ (length (sha1Pad data) mod 64 = 0)%nat
  /\ length (sha1Pad data) = length (RFC.pad data)
  /\ Forall (fun b => 0 <= b < 256) (sha1Pad data).
Proof.
  intros Hbytes Hsmall zeros lengthWord.
  pose proof (sha1Pad_shape data Hsmall) as Hshape.
  pose proof (rfc_pad_shape data Hsmall) as Hrfc.
  fold zeros lengthWord in Hshape, Hrfc.
  assert (Hlen : length (sha1Pad data)
                 = (length data + 1 + zeros + 8)%nat).
  { rewrite Hshape, !length_app, repeat_length. cbn [length].
    unfold lengthWord. cbn [RFC.bigEndian length]. lia. }
  split; [exact Hshape |]. split; [exact Hrfc |]. split; [| split].
  - rewrite Hlen. unfold zeros.
    set (len := Z.of_nat (length data)).
    pose proof (Z.mod_pos_bound (55 - len) 64 ltac:(lia)) as Hr.
    pose proof (Z.div_mod (55 - len) 64 ltac:(lia)) as Hq.
    apply Nat2Z.inj. rewrite Nat2Z.inj_mod.
    replace (Z.of_nat (length data + 1 + Z.to_nat ((55 - len) mod 64) + 8))
      with ((1 - (55 - len) / 64) * 64) by (unfold len in *; lia).
    rewrite Z.mod_mul by lia. reflexivity.
  - rewrite Hlen, Hrfc, !length_app, repeat_length. cbn [length].
    unfold lengthWord. cbn [RFC.bigEndian length]. lia.
  - rewrite Hshape.
    repeat (apply Forall_app; split); try apply bigEndian_bytes.
    + exact Hbytes.
    + repeat constructor; lia.
    + apply Forall_forall. intros x Hx. apply repeat_spec in Hx. lia.
Qed.

Lemma sha1Pad_layout_witness :
  Forall (fun b => 0 <= b < 256) [97; 98; 99]
  /\ Z.of_nat (length [97; 98; 99]) * 8 < 2 ^ 32
  /\ sha1Pad [97; 98; 99]
     = [97; 98; 99] ++ [128] ++ repeat 0 52 ++ [0; 0; 0; 24] ++ [0; 0; 0; 24].
Proof.
  assert (Hbytes : Forall (fun b => 0 <= b < 256) [97; 98; 99])
    by (repeat constructor; lia).
  assert (Hsmall : Z.of_nat (length [97; 98; 99]) * 8 < 2 ^ 32)
    by (simpl; lia).
  split; [exact Hbytes |]. split; [exact Hsmall |].
  apply (sha1Pad_layout [97; 98; 99] Hbytes Hsmall).
Defined.

(** The message ["abc"] for X5. *)
Lemma sha1Simple_digest_witness :
  Forall (fun b => 0 <= b < 256) [97; 98; 99]
  /\ Z.of_nat (length [97; 98; 99]) * 8 < 2 ^ 32
  /\ sha1Simple [97; 98; 99] = RFC.digest (sha1Pad [97; 98; 99]).
Proof.
  assert (Hbytes : Forall (fun b => 0 <= b < 256) [97; 98; 99])
    by (repeat constructor; lia).
  assert (Hsmall : Z.of_nat (length [97; 98; 99]) * 8 < 2 ^ 32)
    by (simpl; lia).
  split; [exact Hbytes |]. split; [exact Hsmall |].
  apply (sha1Simple_digest [97; 98; 99] Hbytes Hsmall).
Defined.

(** ** [hmacSha1Simple] *)

(** X6: on a key of bytes [hmacSha1Simple] is the construction of RFC 2104
    over the hash [sha1Simple], and its result is twenty bytes. *)
Theorem hmacSha1Simple_construction (key message : list Z) :
  Forall (fun b => 0 <= b < 256) key ->
  hmacSha1Simple key message = RFC.hmacWith sha1Simple key message
  /\ length (hmacSha1Simple key message) = 20%nat
  /\ Forall (fun b => 0 <= b < 256) (hmacSha1Simple key message).
Proof.
  intros Hkey. split; [apply hmacSha1Simple_rfc2104; exact Hkey |].
  unfold hmacSha1Simple. apply sha1Simple_output.
Qed.

Lemma hmacSha1Simple_construction_witness :
  Forall (fun b => 0 <= b < 256) [72; 101]
  /\ hmacSha1Simple [72; 101] [1] = RFC.hmacWith sha1Simple [72; 101] [1].
Proof.
  assert (Hkey : Forall (fun b => 0 <= b < 256) [72; 101])
    by (repeat constructor; lia).
  split; [exact Hkey |].
  apply (hmacSha1Simple_construction [72; 101] [1] Hkey).
Defined.

Lemma hmacSha1Simple_key_hashed (key : list Z) :
  (blockSize < length key)%nat ->
  (if (blockSize <? length (sha1Simple key))%nat
   then sha1Simple (sha1Simple key) else sha1Simple key)
  = (if (blockSize <? length key)%nat then sha1Simple key else key).
Proof.
  intros Hlong. destruct (sha1Simple_output key) as [Hlen _].
  rewrite Hlen.
  destruct (Nat.ltb_spec blockSize (length key)) as [_ | ?]; [| lia].
  reflexivity.
Qed.

(** X7: a key longer than 64 bytes and its [sha1Simple] digest are the same
    key: they give the same result on every message. *)
Theorem hmacSha1Simple_long_key (key message : list Z) :
  (64 < length key)%nat ->
  hmacSha1Simple (sha1Simple key) message = hmacSha1Simple key message.
Proof.
  intros Hlong. unfold hmacSha1Simple.
  rewrite (hmacSha1Simple_key_hashed key Hlong). reflexivity.
Qed.

Lemma hmacSha1Simple_long_key_witness :
  (64 < length (repeat 7 65))%nat
  /\ hmacSha1Simple (sha1Simple (repeat 7 65)) [1]
     = hmacSha1Simple (repeat 7 65) [1].
Proof.
  split; [simpl; lia |].
  apply (hmacSha1Simple_long_key (repeat 7 65) [1]). simpl. lia.
Defined.

(** X8: zero bytes at the end of a key of at most 64 bytes do not count:
    the key with a zero byte appended gives the same result. *)
Theorem hmacSha1Simple_zero_padded_key (key message : list Z) :
  (length key < 64)%nat ->
  hmacSha1Simple (key ++ [0]) message = hmacSha1Simple key message.
Proof.
  intros Hshort. unfold hmacSha1Simple.
  assert (Hlen : length (key ++ [0]) = S (length key))
    by (rewrite length_app; simpl; lia).
  rewrite Hlen.
  destruct (Nat.ltb_spec blockSize (S (length key))) as [? | _];
    [unfold blockSize in *; lia |].
  destruct (Nat.ltb_spec blockSize (length key)) as [? | _];
    [unfold blockSize in *; lia |].
  rewrite (arraySet_zeros blockSize (key ++ [0]))
    by (rewrite Hlen; unfold blockSize; lia).
  rewrite (arraySet_zeros blockSize key) by (unfold blockSize; lia).
  rewrite Hlen, <- app_assoc.
  replace (blockSize - length key)%nat with (S (blockSize - S (length key)))
    by (unfold blockSize; lia).
  reflexivity.
Qed.

Lemma hmacSha1Simple_zero_padded_key_witness :
  (length [72; 101] < 64)%nat
  /\ hmacSha1Simple ([72; 101] ++ [0]) [1] = hmacSha1Simple [72; 101] [1].
Proof.
  split; [simpl; lia |].
  apply (hmacSha1Simple_zero_padded_key [72; 101] [1]). simpl. lia.
Defined.

(** ** [dynamicTruncate] *)

(** X9: on twenty bytes [dynamicTruncate] is the truncation of RFC 4226,
    section 5.3, to six digits, a number between 0 and 999999. *)
Theorem dynamicTruncate_is_rfc4226 (hmac : list Z) :
  length hmac = 20%nat ->
  Forall (fun b => 0 <= b < 256) hmac ->
  dynamicTruncate hmac = RFC.truncate hmac 6
  /\ 0 <= RFC.truncate hmac 6 <= 999999.
Proof.
  intros Hlen Hbytes.
  rewrite <- (dynamicTruncate_rfc4226 hmac Hlen Hbytes).
  split; [reflexivity |].
  pose proof (dynamicTruncate_range hmac). lia.
Qed.

Lemma dynamicTruncate_is_rfc4226_witness :
  length (RFC.bigEndian 20 77) = 20%nat
  /\ Forall (fun b => 0 <= b < 256) (RFC.bigEndian 20 77)
  /\ dynamicTruncate (RFC.bigEndian 20 77)
     = RFC.truncate (RFC.bigEndian 20 77) 6.
Proof.
  split; [reflexivity |]. split; [apply bigEndian_bytes |].
  apply (dynamicTruncate_is_rfc4226 (RFC.bigEndian 20 77) eq_refl
           (bigEndian_bytes 20 77)).
Defined.

(** ** [generate]: what it returns, and when the code changes *)

Lemma generate_string (h : Host) (s : jsstring) (time : option Z) :
  generate h (VString s) time
  = match base32Decode h (normalized h s) with
    | Normal key =>
        Normal
          (padStart codeDigits (N_of_ascii "0")
             (toStringRadix 10
                (dynamicTruncate
                   (hmacSha1 h key
                      (intToBytes
                         (floorDiv
                            match time with
                            | None => floorDiv (dateNow h) 1000
                            | Some t => t
                            end timeStep))))))
    | Throw _ => Normal (lit "ERROR")
    end.
Proof.
  unfold generate, generateBody. rewrite cleanSecret_string. cbn [bind].
  destruct (base32Decode h (normalized h s)); reflexivity.
Qed.

Lemma generate_not_string (h : Host) (v : value) (time : option Z) :
  (forall s, v <> VString s) -> generate h v time = Normal (lit "ERROR").
Proof.
  intros Hv. unfold generate, generateBody.
  rewrite (cleanSecret_not_string h v Hv). reflexivity.
Qed.

Lemma generate_resolves (h : Host) (v : value) (time : option Z) :
  exists code, generate h v time = Normal code.
Proof.
  unfold generate, tryCatch.
  destruct (generateBody h v time); eexists; reflexivity.
Qed.

(** X12: [generate] never throws.  It resolves to the string ["ERROR"]
    exactly when the secret is not a string or its cleaned form does not
    decode, and to six decimal digits otherwise, whether the secret passes
    [validateSecret] or not. *)
Theorem generate_outcomes (h : Host) (v : value) (time : option Z) :
  (exists code, generate h v time = Normal code
                /\ (code = lit "ERROR" \/ sixDigits code = true))
  /\ (generate h v time = Normal (lit "ERROR")
      <-> (forall s, v <> VString s)
          \/ (exists s e, v = VString s
                          /\ base32Decode h (normalized h s) = Throw e)).
Proof.
  destruct v as [s | n | |];
    try (split;
         [ eexists; split; [apply generate_not_string; discriminate |
                            left; reflexivity]
         | split; [intros _; left; discriminate |
                   intros _; apply generate_not_string; discriminate] ]).
  rewrite generate_string.
  destruct (base32Decode h (normalized h s)) as [key | e] eqn:Hdec.
  - set (value := dynamicTruncate _).
    pose proof (code_string_six_digits value
                  ltac:(apply dynamicTruncate_range)) as Hsix.
    split.
    + eexists. split; [reflexivity | right; exact Hsix].
    + split.
      * intros Herr. exfalso.
        assert (Hcode : padStart codeDigits (N_of_ascii "0")
                          (toStringRadix 10 value) = lit "ERROR")
          by congruence.
        rewrite Hcode in Hsix. discriminate Hsix.
      * intros [Hnot | (s' & e & Hs & Hthrow)].
        -- exfalso. apply (Hnot s). reflexivity.
        -- injection Hs as <-. rewrite Hdec in Hthrow. discriminate Hthrow.
  - split.
    + eexists. split; [reflexivity | left; reflexivity].
    + split; [| reflexivity].
      intros _. right. exists s, e. split; [reflexivity | exact Hdec].
Qed.



(** ** The cleaning of the secret *)

Lemma replaceAll_app (matches : N -> bool) (by_ s t : jsstring) :
  replaceAll matches by_ (s ++ t)
  = replaceAll matches by_ s ++ replaceAll matches by_ t.
Proof. unfold replaceAll. apply flat_map_app. Qed.

Lemma replaceAll_rev (matches : N -> bool) (s : jsstring) :
  replaceAll matches [] (rev s) = rev (replaceAll matches [] s).
Proof.
  induction s as [| c s IH]; [reflexivity |].
  cbn [rev]. rewrite replaceAll_app, IH.
  unfold replaceAll. cbn [flat_map].
  destruct (matches c); cbn [app rev]; [apply app_nil_r | reflexivity].
Qed.

Lemma replaceAll_matching (matches : N -> bool) (s : jsstring) :
  forallb matches s = true -> replaceAll matches [] s = [].
Proof.
  induction s as [| c s IH]; [reflexivity |].
  cbn [forallb]. intros H. apply andb_true_iff in H. destruct H as [Hc Hs].
  unfold replaceAll in *. cbn [flat_map]. rewrite Hc. apply IH. exact Hs.
Qed.

Lemma strip_trimStart (s : jsstring) :
  replaceAll isSeparator [] (trimStart s) = replaceAll isSeparator [] s.
Proof.
  induction s as [| c s IH]; [reflexivity |].
  cbn [trimStart]. destruct (isWhiteSpace c) eqn:Hc; [| reflexivity].
  rewrite IH. unfold replaceAll. cbn [flat_map].
  unfold isSeparator at 2. rewrite Hc. reflexivity.
Qed.

Lemma strip_trim (s : jsstring) :
  replaceAll isSeparator [] (trim s) = replaceAll isSeparator [] s.
Proof.
  unfold trim.
  rewrite replaceAll_rev, strip_trimStart, replaceAll_rev, rev_involutive.
  apply strip_trimStart.
Qed.

(** Two strings with the same cleaned form are the same secret. *)
Lemma same_normalized (h : Host) (s t : jsstring) (time : option Z) :
  normalized h s = normalized h t ->
  validateSecret h (VString s) = validateSecret h (VString t)
  /\ generate h (VString s) time = generate h (VString t) time.
Proof.
  intros Hsame. rewrite !validateSecret_string, !generate_string, Hsame.
  split; reflexivity.
Qed.

(** X14: white space and dashes in a secret do not count, wherever they
    stand: the trimmed secret, and the secret with a run of separators
    inserted, are cleaned, validated and turned into a code like the secret
    itself. *)
Theorem secret_separators_ignored (h : Host) (before separators after
    : jsstring) (time : option Z) :
  forallb isSeparator separators = true ->
  let s := before ++ after in
  let spaced := before ++ separators ++ after in
  normalized h spaced = normalized h s
  /\ validateSecret h (VString spaced) = validateSecret h (VString s)
  /\ generate h (VString spaced) time = generate h (VString s) time
  /\ normalized h (trim spaced) = normalized h spaced
  /\ validateSecret h (VString (trim spaced))
     = validateSecret h (VString spaced)
  /\ generate h (VString (trim spaced)) time
     = generate h (VString spaced) time.
Proof.
  intros Hsep s spaced.
  assert (Hspaced : normalized h spaced = normalized h s).
  { unfold normalized, spaced, s.
    change (fun c => isWhiteSpace c || isChar "-" c) with isSeparator.
    rewrite !replaceAll_app, (replaceAll_matching _ _ Hsep). reflexivity. }
  assert (Htrim : normalized h (trim spaced) = normalized h spaced).
  { unfold normalized.
    change (fun c => isWhiteSpace c || isChar "-" c) with isSeparator.
    rewrite strip_trim. reflexivity. }
  destruct (same_normalized h spaced s time Hspaced) as [Hv Hg].
  destruct (same_normalized h (trim spaced) spaced time Htrim) as [Hv' Hg'].
  repeat split; assumption.
Qed.

Lemma secret_separators_ignored_witness :
  forallb isSeparator (lit " - ") = true
  /\ normalized (plainHost 0) (lit "JBSW" ++ lit " - " ++ lit "Y3DP")
     = normalized (plainHost 0) (lit "JBSW" ++ lit "Y3DP").
Proof.
  split; [reflexivity |].
  apply (secret_separators_ignored (plainHost 0) (lit "JBSW") (lit " - ")
           (lit "Y3DP") None).
  reflexivity.
Defined.

(** On a string of ASCII characters the cleaning works character by
    character. *)
Lemma replaceAll_one (a : ascii) (b : N) (s : jsstring) :
  replaceAll (isChar a) [b] s = map (fun c => if isChar a c then b else c) s.
Proof.
  unfold replaceAll. induction s as [| c s IH]; [reflexivity |].
  cbn [flat_map map]. rewrite IH. destruct (isChar a c); reflexivity.
Qed.

Lemma strip_ascii (s : jsstring) :
  forallb isAscii s = true ->
  forallb isAscii (replaceAll isSeparator [] s) = true.
Proof.
  induction s as [| c s IH]; [reflexivity |].
  cbn [forallb]. intros H. apply andb_true_iff in H. destruct H as [Hc Hs].
  unfold replaceAll in *. cbn [flat_map].
  destruct (isSeparator c); cbn [app forallb]; [| rewrite Hc];
    apply IH; exact Hs.
Qed.

Lemma normalized_ascii (h : Host) (s : jsstring) :
  HostUpperAscii h -> forallb isAscii s = true ->
  normalized h s = flat_map normalizeChar s.
Proof.
  intros Hupper Hascii. unfold normalized.
  change (fun c => isWhiteSpace c || isChar "-" c) with isSeparator.
  rewrite Hupper by (apply strip_ascii; exact Hascii).
  change (lit "I") with [N_of_ascii "I"].
  change (lit "O") with [N_of_ascii "O"].
  rewrite !replaceAll_one, !map_map. clear Hascii.
  induction s as [| c s IH]; [reflexivity |].
  unfold replaceAll in *. cbn [flat_map]. unfold normalizeChar at 1.
  destruct (isSeparator c) eqn:Hc; cbn [app map]; rewrite IH;
    [reflexivity |].
  f_equal.
  destruct (isChar "0" (upperAscii c)) eqn:H0; [reflexivity |].
  reflexivity.
Qed.

Lemma normalizeChar_ascii (c : N) :
  isAscii c = true ->
  forallb isAscii (normalizeChar c) = true
  /\ flat_map normalizeChar (normalizeChar c) = normalizeChar c
  /\ normalizeChar (upperAscii c) = normalizeChar c
  /\ isAscii (upperAscii c) = true.
Proof.
  intros Hc. apply N.ltb_lt in Hc.
  pose proof (ascii_forall
    (fun c =>
       forallb isAscii (normalizeChar c)
       && (if list_eq_dec N.eq_dec
                (flat_map normalizeChar (normalizeChar c)) (normalizeChar c)
           then true else false)
       && (if list_eq_dec N.eq_dec
                (normalizeChar (upperAscii c)) (normalizeChar c)
           then true else false)
       && isAscii (upperAscii c))
    ltac:(vm_compute; reflexivity) c Hc) as H.
  cbv beta in H.
  apply andb_true_iff in H. destruct H as [H H4].
  apply andb_true_iff in H. destruct H as [H H3].
  apply andb_true_iff in H. destruct H as [H1 H2].
  destruct (list_eq_dec N.eq_dec (flat_map normalizeChar (normalizeChar c))
              (normalizeChar c)) as [E2 | _]; [| discriminate H2].
  destruct (list_eq_dec N.eq_dec (normalizeChar (upperAscii c))
              (normalizeChar c)) as [E3 | _]; [| discriminate H3].
  repeat split; assumption.
Qed.

Lemma normalizeChars_ascii (s : jsstring) :
  forallb isAscii s = true ->
  forallb isAscii (flat_map normalizeChar s) = true
  /\ flat_map normalizeChar (flat_map normalizeChar s)
     = flat_map normalizeChar s
  /\ flat_map normalizeChar (map upperAscii s) = flat_map normalizeChar s
  /\ forallb isAscii (map upperAscii s) = true.
Proof.
  induction s as [| c s IH]; [repeat split |].
  cbn [forallb]. intros H. apply andb_true_iff in H. destruct H as [Hc Hs].
  destruct (IH Hs) as (I1 & I2 & I3 & I4).
  destruct (normalizeChar_ascii c Hc) as (C1 & C2 & C3 & C4).
  cbn [flat_map map forallb].
  rewrite forallb_app, flat_map_app, C1, I1, C2, I2, C3, I3, C4, I4.
  repeat split.
Qed.

Section AsciiSecrets.

Variable h : Host.
Hypothesis Hupper : HostUpperAscii h.

(** X15: on a secret of ASCII characters the cleaning is idempotent: the
    cleaned secret is its own cleaned form, and is validated and turned
    into a code like the secret it comes from. *)
Theorem normalized_idempotent (s : jsstring) (time : option Z) :
  forallb isAscii s = true ->
  normalized h (normalized h s) = normalized h s
  /\ validateSecret h (VString (normalized h s))
     = validateSecret h (VString s)
  /\ generate h (VString (normalized h s)) time
     = generate h (VString s) time.
Proof.
  intros Hascii.
  destruct (normalizeChars_ascii s Hascii) as (H1 & H2 & _).
  assert (Hidem : normalized h (normalized h s) = normalized h s).
  { rewrite (normalized_ascii h s Hupper Hascii).
    rewrite (normalized_ascii h _ Hupper H1). exact H2. }
  destruct (same_normalized h (normalized h s) s time Hidem) as [Hv Hg].
  repeat split; assumption.
Qed.

(** X16: the case of the letters of an ASCII secret does not count: the
    secret in upper case is cleaned, validated and turned into a code like
    the secret itself. *)
Theorem secret_case_insensitive (s : jsstring) (time : option Z) :
  forallb isAscii s = true ->
  normalized h (map upperAscii s) = normalized h s
  /\ validateSecret h (VString (map upperAscii s))
     = validateSecret h (VString s)
  /\ generate h (VString (map upperAscii s)) time
     = generate h (VString s) time.
Proof.
  intros Hascii.
  destruct (normalizeChars_ascii s Hascii) as (_ & _ & H3 & H4).
  assert (Hsame : normalized h (map upperAscii s) = normalized h s).
  { rewrite (normalized_ascii h s Hupper Hascii).
    rewrite (normalized_ascii h _ Hupper H4). exact H3. }
  destruct (same_normalized h (map upperAscii s) s time Hsame) as [Hv Hg].
  repeat split; assumption.
Qed.

End AsciiSecrets.

Lemma normalized_idempotent_witness :
  HostUpperAscii (plainHost 0)
  /\ forallb isAscii (lit "jb0w-1 3dp") = true
  /\ normalized (plainHost 0) (normalized (plainHost 0) (lit "jb0w-1 3dp"))
     = normalized (plainHost 0) (lit "jb0w-1 3dp").
Proof.
  split; [apply plainHost_upperAscii |]. split; [reflexivity |].
  apply (normalized_idempotent (plainHost 0) (plainHost_upperAscii 0)
           (lit "jb0w-1 3dp") None).
  reflexivity.
Defined.

Lemma secret_case_insensitive_witness :
  HostUpperAscii (plainHost 0)
  /\ forallb isAscii (lit "jbswy3dpehpk3pxp") = true
  /\ normalized (plainHost 0) (map upperAscii (lit "jbswy3dpehpk3pxp"))
     = normalized (plainHost 0) (lit "jbswy3dpehpk3pxp").
Proof.
  split; [apply plainHost_upperAscii |]. split; [reflexivity |].
  apply (secret_case_insensitive (plainHost 0) (plainHost_upperAscii 0)
           (lit "jbswy3dpehpk3pxp") None).
  reflexivity.
Defined.

(** ** [base32Decode]: padding, case and concatenation *)

Lemma replaceAll_none (matches : N -> bool) (s : jsstring) :
  forallb (fun c => negb (matches c)) s = true ->
  replaceAll matches [] s = s.
Proof.
  induction s as [| c s IH]; [reflexivity |].
  cbn [forallb]. intros H. apply andb_true_iff in H. destruct H as [Hc Hs].
  unfold replaceAll in *. cbn [flat_map].
  apply negb_true_iff in Hc. rewrite Hc, (IH Hs). reflexivity.
Qed.

Lemma inAlphabet_class (c : N) :
  RFC.inAlphabet c = true ->
  base32Class c = true /\ negb (isChar "=" c) = true.
Proof.
  unfold base32Class, RFC.inAlphabet, inRange, isChar. simpl N_of_ascii.
  intros H. split; [rewrite H; reflexivity |].
  apply negb_true_iff, N.eqb_neq. intros ->. discriminate H.
Qed.

Lemma groupsOfEight_app (k : nat) :
  forall x y, length x = (8 * k)%nat ->
              RFC.groupsOfEight (x ++ y)
              = RFC.groupsOfEight x ++ RFC.groupsOfEight y.
Proof.
  induction k as [| k IH]; intros x y Hlen.
  - destruct x; [reflexivity | simpl in Hlen; lia].
  - destruct x as [| b0 [| b1 [| b2 [| b3 [| b4 [| b5 [| b6 [| b7 x]]]]]]]];
      simpl in Hlen; try lia.
    cbn [app RFC.groupsOfEight]. rewrite IH by lia. reflexivity.
Qed.

Lemma upperAscii_facts (c : N) :
  upperAscii (upperAscii c) = upperAscii c
  /\ isChar "=" (upperAscii c) = isChar "=" c.
Proof.
  unfold upperAscii, inRange, isChar. simpl N_of_ascii.
  destruct ((97 <=? c)%N && (c <=? 122)%N) eqn:Hlower.
  - apply andb_true_iff in Hlower. destruct Hlower as [H1 H2].
    apply N.leb_le in H1, H2. split.
    + destruct (N.leb_spec 97 (c - 32)); [lia | reflexivity].
    + destruct (N.eqb_spec (c - 32) 61), (N.eqb_spec c 61); try lia;
        reflexivity.
  - rewrite Hlower. split; reflexivity.
Qed.

Section Decoder.

Variable h : Host.
Hypothesis Hupper : HostUpperAscii h.

(** A string of the alphabet decodes, to the bytes of the reference. *)
Lemma alphabet_decodes (s : jsstring) :
  forallb RFC.inAlphabet s = true ->
  base32Decode h s = Normal (RFC.base32Bytes s).
Proof.
  intros Halpha.
  assert (Hclass : forallb base32Class s = true
                   /\ forallb (fun c => negb (isChar "=" c)) s = true).
  { rewrite !forallb_forall. rewrite forallb_forall in Halpha.
    split; intros c Hc; apply inAlphabet_class, Halpha, Hc. }
  destruct Hclass as [Hclass Hnopad].
  destruct (stripped_alphabet h Hupper s Hclass) as [Hsame Hstripped].
  rewrite base32Decode_success; rewrite Hsame; [| exact Hstripped].
  rewrite (replaceAll_none _ _ Hnopad). reflexivity.
Qed.

(** X17: decoding goes group by group: when the first of two strings of
    the alphabet has a multiple of eight characters, the concatenation
    decodes to the bytes of the first, five for every eight characters,
    followed by the bytes of the second. *)
Theorem base32Decode_concatenation (s t : jsstring) (k : nat) :
  forallb RFC.inAlphabet s = true ->
  forallb RFC.inAlphabet t = true ->
  length s = (8 * k)%nat ->
  exists bytes rest,
    base32Decode h s = Normal bytes
    /\ base32Decode h t = Normal rest
    /\ base32Decode h (s ++ t) = Normal (bytes ++ rest)
    /\ length bytes = (5 * k)%nat.
Proof.
  intros Hs Ht Hlen.
  exists (RFC.base32Bytes s), (RFC.base32Bytes t).
  rewrite !alphabet_decodes
    by (try assumption; rewrite forallb_app, Hs, Ht; reflexivity).
  split; [reflexivity |]. split; [reflexivity |]. split.
  - unfold RFC.base32Bytes. rewrite flat_map_app.
    rewrite (groupsOfEight_app (5 * k)); [reflexivity |].
    rewrite fiveBits_length, Hlen. lia.
  - unfold RFC.base32Bytes.
    rewrite (groupsOfEight_length _ _ (Nat.le_refl _)), fiveBits_length, Hlen.
    replace (5 * (8 * k))%nat with ((5 * k) * 8)%nat by lia.
    apply Nat.div_mul. lia.
Qed.

(** X18: [base32Decode] ignores padding characters wherever they stand,
    and, on a string of ASCII characters, the case of the letters. *)
Theorem base32Decode_ignores_padding_and_case (s t padding : jsstring) :
  forallb (isChar "=") padding = true ->
  forallb isAscii s = true ->
  base32Decode h (s ++ padding ++ t) = base32Decode h (s ++ t)
  /\ base32Decode h (map upperAscii s) = base32Decode h s.
Proof.
  intros Hpad Hascii. split.
  - unfold base32Decode.
    rewrite !replaceAll_app, (replaceAll_matching _ _ Hpad). reflexivity.
  - unfold base32Decode.
    assert (Hstrip : replaceAll (isChar "=") [] (map upperAscii s)
                     = map upperAscii (replaceAll (isChar "=") [] s)).
    { clear Hascii. unfold replaceAll.
      induction s as [| c s IH]; [reflexivity |].
      cbn [map flat_map]. rewrite IH.
      rewrite (proj2 (upperAscii_facts c)).
      destruct (isChar "=" c); reflexivity. }
    assert (Hstripped : forallb isAscii (replaceAll (isChar "=") [] s) = true).
    { rewrite forallb_forall in *. intros c Hc. apply Hascii.
      unfold replaceAll in Hc. apply in_flat_map in Hc.
      destruct Hc as (x & Hx & Hcx).
      destruct (isChar "=" x); [contradiction |].
      destruct Hcx as [<- | []]. exact Hx. }
    assert (Hupped : forallb isAscii
                       (map upperAscii (replaceAll (isChar "=") [] s)) = true).
    { rewrite forallb_forall in *. intros c Hc.
      apply in_map_iff in Hc. destruct Hc as (x & <- & Hx).
      specialize (Hstripped x Hx). unfold isAscii, upperAscii in *.
      apply N.ltb_lt in Hstripped. apply N.ltb_lt.
      destruct (inRange "a" "z" x); lia. }
    rewrite Hstrip, (Hupper _ Hupped), (Hupper _ Hstripped), map_map.
    do 2 f_equal. apply map_ext. intros c. apply upperAscii_facts.
Qed.

End Decoder.

Lemma base32Decode_concatenation_witness :
  HostUpperAscii (plainHost 0)
  /\ forallb RFC.inAlphabet (lit "JBSWY3DP") = true
  /\ forallb RFC.inAlphabet (lit "EHPK3PXP") = true
  /\ length (lit "JBSWY3DP") = (8 * 1)%nat
  /\ exists bytes rest,
       base32Decode (plainHost 0) (lit "JBSWY3DP") = Normal bytes
       /\ base32Decode (plainHost 0) (lit "EHPK3PXP") = Normal rest
       /\ base32Decode (plainHost 0) (lit "JBSWY3DP" ++ lit "EHPK3PXP")
          = Normal (bytes ++ rest)
       /\ length bytes = (5 * 1)%nat.
Proof.
  split; [apply plainHost_upperAscii |]. do 3 (split; [reflexivity |]).
  apply (base32Decode_concatenation (plainHost 0) (plainHost_upperAscii 0)
           (lit "JBSWY3DP") (lit "EHPK3PXP") 1); reflexivity.
Defined.

Lemma base32Decode_ignores_padding_and_case_witness :
  HostUpperAscii (plainHost 0)
  /\ forallb (isChar "=") (lit "==") = true
  /\ forallb isAscii (lit "jbswy3dp") = true
  /\ base32Decode (plainHost 0) (map upperAscii (lit "jbswy3dp"))
     = base32Decode (plainHost 0) (lit "jbswy3dp").
Proof.
  split; [apply plainHost_upperAscii |]. do 2 (split; [reflexivity |]).
  apply (base32Decode_ignores_padding_and_case (plainHost 0)
           (plainHost_upperAscii 0) (lit "jbswy3dp") [] (lit "==")).
  - reflexivity.
  - reflexivity.
Defined.


(** * The application [ZKSAuth] *)

Import ZKSAuth.

Lemma hostAt_upperAscii (h : Host) (now : Z) :
  HostUpperAscii h -> HostUpperAscii (hostAt h now).
Proof. intros Hupper s Hs. apply (Hupper s Hs). Qed.

(** A validated secret gives six digits, at any time. *)
Lemma generate_validated (h : Host) (s : jsstring) (time : option Z) :
  HostUpperAscii h ->
  validateSecret h (VString s) = Normal true ->
  exists code, generate h (VString s) time = Normal code
               /\ sixDigits code = true.
Proof.
  intros Hupper Hvalid. rewrite generate_string.
  rewrite (validated_decodes h Hupper s Hvalid).
  eexists. split; [reflexivity |].
  apply code_string_six_digits, dynamicTruncate_range.
Qed.

Lemma validated_not_empty (h : Host) (s : jsstring) :
  HostUpperAscii h ->
  validateSecret h (VString s) = Normal true -> s <> [].
Proof.
  intros Hupper Hvalid ->.
  rewrite validateSecret_string in Hvalid.
  unfold normalized in Hvalid. cbn [replaceAll flat_map] in Hvalid.
  rewrite (Hupper [] eq_refl) in Hvalid. discriminate Hvalid.
Qed.

Lemma validateSecret_boolean (h : Host) (s : jsstring) :
  validateSecret h (VString s) = Normal true
  \/ validateSecret h (VString s) = Normal false.
Proof.
  rewrite validateSecret_string.
  destruct (regexTest _ && _); [left | right]; reflexivity.
Qed.

Section Application.

Variable h : Host.
Hypothesis Hupper : HostUpperAscii h.

(** [generateCode] on a secret that passes [validateSecret]. *)
Lemma generateCode_valid (a : instance) (secret : jsstring) (w : world) :
  validateSecret h (VString secret) = Normal true ->
  exists code,
    generate (hostAt h (clock w (reads w))) (VString secret) None
    = Normal code
    /\ sixDigits code = true
    /\ generateCode h a secret w
       = ({| currentSecret := secret;
             timerInterval := Some (nextHandle w);
             codeGenerationInterval := Some (Pos.succ (nextHandle w)) |},
          {| clock := clock w; reads := S (S (reads w));
             nextHandle := Pos.succ (Pos.succ (nextHandle w));
             trace :=
               trace w
                 ++ [CodeDisplayed code;
                     TimerUpdated
                       (getRemainingSeconds
                          (hostAt h (clock w (S (reads w)))) []);
                     IntervalSet (nextHandle w) UpdateTimer;
                     IntervalSet (Pos.succ (nextHandle w)) AutoRefresh] |},
          Normal tt).
Proof.
  intros Hvalid.
  pose proof (validated_not_empty h secret Hupper Hvalid) as Hne.
  destruct (generate_validated (hostAt h (clock w (reads w))) secret None
              (hostAt_upperAscii h _ Hupper) Hvalid) as (code & Hgen & Hsix).
  exists code. split; [exact Hgen |]. split; [exact Hsix |].
  unfold generateCode. destruct secret as [| c secret]; [contradiction |].
  rewrite Hvalid. unfold generateTOTPCode, readClock.
  rewrite Hgen.
  unfold displayCode, startTimer, updateTimer, startAutoRefresh,
    setInterval, readClock, emit.
  cbn [clock reads nextHandle trace currentSecret timerInterval
       codeGenerationInterval].
  rewrite <- !app_assoc. reflexivity.
Qed.

Lemma generateCode_invalid (a : instance) (secret : jsstring) (w : world) :
  secret <> [] ->
  validateSecret h (VString secret) = Normal false ->
  generateCode h a secret w
  = (a,
     showError
       (lit "Invalid secret key format. Please enter a valid base32 encoded key.")
       w,
     Normal tt).
Proof.
  intros Hne Hinvalid. unfold generateCode.
  destruct secret as [| c secret]; [contradiction |].
  rewrite Hinvalid. reflexivity.
Qed.

(** X19: [generateCode] does one of three things.  On the empty string it
    shows "Please enter a secret key"; on a secret that [validateSecret]
    rejects it shows the invalid-format message; in both cases nothing else
    changes.  On a secret that [validateSecret] accepts it stores the secret,
    displays a code of six digits, writes the countdown and sets the two
    intervals, whose handles it stores.  It never rejects, the message of
    its catch clause is never shown and ["ERROR"] is never displayed. *)
Theorem generateCode_outcomes (a : instance) (secret : jsstring) (w : world) :
  (secret = [] ->
   generateCode h a secret w
   = (a, showError (lit "Please enter a secret key") w, Normal tt))
  /\ (secret <> [] ->
      validateSecret h (VString secret) = Normal false ->
      generateCode h a secret w
      = (a,
         showError
           (lit "Invalid secret key format. Please enter a valid base32 encoded key.")
           w,
         Normal tt))
  /\ (validateSecret h (VString secret) = Normal true ->
      exists code remaining,
        sixDigits code = true
        /\ generateCode h a secret w
           = ({| currentSecret := secret;
                 timerInterval := Some (nextHandle w);
                 codeGenerationInterval := Some (Pos.succ (nextHandle w)) |},
              {| clock := clock w; reads := S (S (reads w));
                 nextHandle := Pos.succ (Pos.succ (nextHandle w));
                 trace :=
                   trace w
                     ++ [CodeDisplayed code; TimerUpdated remaining;
                         IntervalSet (nextHandle w) UpdateTimer;
                         IntervalSet (Pos.succ (nextHandle w)) AutoRefresh] |},
              Normal tt))
  /\ (exists events,
        trace (snd (fst (generateCode h a secret w))) = trace w ++ events
        /\ snd (generateCode h a secret w) = Normal tt
        /\ ~ In (ErrorShown
                   (lit "Error generating code. Please check your secret key."))
                events
        /\ ~ In (CodeDisplayed (lit "ERROR")) events).
Proof.
  split; [intros ->; reflexivity |].
  split; [apply generateCode_invalid |].
  split.
  - intros Hvalid.
    destruct (generateCode_valid a secret w Hvalid) as (code & _ & Hsix & Heq).
    exists code. eexists. split; [exact Hsix | exact Heq].
  - destruct secret as [| c secret].
    + eexists. cbn [generateCode fst snd]. unfold showError, emit.
      cbn [trace]. split; [reflexivity |]. split; [reflexivity |].
      split; intros [Heq | []]; discriminate Heq.
    + destruct (validateSecret_boolean h (c :: secret)) as [Hvalid | Hinvalid].
      * destruct (generateCode_valid a (c :: secret) w Hvalid)
          as (code & _ & Hsix & ->).
        eexists. cbn [fst snd trace]. split; [reflexivity |].
        split; [reflexivity |].
        split; intros [Heq | [Heq | [Heq | [Heq | []]]]];
          try discriminate Heq.
        injection Heq as ->. discriminate Hsix.
      * rewrite (generateCode_invalid a (c :: secret) w
                   ltac:(discriminate) Hinvalid).
        eexists. unfold showError, emit. cbn [fst snd trace].
        split; [reflexivity |]. split; [reflexivity |].
        split; intros [Heq | []]; discriminate Heq.
Qed.

End Application.

(** A freshly loaded page, the clock at 59 seconds. *)
Lemma generateCode_outcomes_witness :
  HostUpperAscii (plainHost 0)
  /\ validateSecret (plainHost 0) (VString (lit "JBSWY3DPEHPK3PXP"))
     = Normal true
  /\ exists code remaining,
       sixDigits code = true
       /\ generateCode (plainHost 0) initial (lit "JBSWY3DPEHPK3PXP")
            (loaded (fun _ => 59000))
          = ({| currentSecret := lit "JBSWY3DPEHPK3PXP";
                timerInterval := Some (nextHandle (loaded (fun _ => 59000)));
                codeGenerationInterval :=
                  Some (Pos.succ (nextHandle (loaded (fun _ => 59000)))) |},
             {| clock := clock (loaded (fun _ => 59000));
                reads := S (S (reads (loaded (fun _ => 59000))));
                nextHandle :=
                  Pos.succ (Pos.succ (nextHandle (loaded (fun _ => 59000))));
                trace :=
                  trace (loaded (fun _ => 59000))
                    ++ [CodeDisplayed code; TimerUpdated remaining;
                        IntervalSet (nextHandle (loaded (fun _ => 59000)))
                          UpdateTimer;
                        IntervalSet
                          (Pos.succ (nextHandle (loaded (fun _ => 59000))))
                          AutoRefresh] |},
             Normal tt).
Proof.
  assert (Hvalid : validateSecret (plainHost 0)
                     (VString (lit "JBSWY3DPEHPK3PXP")) = Normal true)
    by reflexivity.
  split; [apply plainHost_upperAscii |]. split; [exact Hvalid |].
  destruct (generateCode_outcomes (plainHost 0) (plainHost_upperAscii 0)
              initial (lit "JBSWY3DPEHPK3PXP") (loaded (fun _ => 59000)))
    as (_ & _ & Hcode & _).
  exact (Hcode Hvalid).
Defined.

Section Timers.

Variable h : Host.
Hypothesis Hupper : HostUpperAscii h.

(** X21: the callback of [startAutoRefresh] regenerates the code exactly
    when the clock is in the last second of a 30-second window and a secret
    is stored.  When the second reading of the clock falls in the same
    second, what it displays is the code of the window that ends with this
    second, the one [generate] gives at the start of the window; otherwise
    it changes nothing on the page. *)
Theorem autoRefreshTick_displays_expiring_code (a : instance) (w : world) :
  0 <= clock w (reads w) ->
  let now := clock w (reads w) / 1000 in
  (now mod 30 <> 29 \/ currentSecret a = [] ->
   autoRefreshTick h a w = (snd (readClock w), Normal tt))
  /\ (now mod 30 = 29 -> currentSecret a <> [] ->
      clock w (S (reads w)) / 1000 = now ->
      exists code,
        generate h (VString (currentSecret a)) (Some (now - 29)) = Normal code
        /\ (now - 29) mod 30 = 0
        /\ (now + 1) / 30 = now / 30 + 1
        /\ trace (fst (autoRefreshTick h a w)) = trace w ++ [CodeDisplayed code]
        /\ snd (autoRefreshTick h a w) = Normal tt).
Proof.
  intros Hclock now.
  assert (Hnow : 0 <= now) by (apply Z.div_pos; lia).
  assert (Hremaining : getRemainingSeconds (hostAt h (clock w (reads w))) []
                       = 30 - now mod 30).
  { unfold getRemainingSeconds, rem, floorDiv, timeStep.
    cbn [dateNow hostAt]. fold now.
    rewrite Z.rem_mod_nonneg by lia. reflexivity. }
  pose proof (Z.mod_pos_bound now 30 ltac:(lia)) as Hmod.
  pose proof (Z.div_mod now 30 ltac:(lia)) as Hdiv.
  split.
  - intros Hidle. unfold autoRefreshTick, readClock.
    rewrite Hremaining.
    destruct Hidle as [Hnot | Hempty].
    + destruct (Z.leb_spec (30 - now mod 30) 1) as [? | _]; [lia |].
      reflexivity.
    + rewrite Hempty, andb_false_r. reflexivity.
  - intros Hlast Hsecret Hsame.
    destruct (generate_resolves h (VString (currentSecret a))
                (Some (now - 29))) as [code Hcode].
    exists code. split; [exact Hcode |].
    assert (Hwindow : (now - 29) / 30 = now / 30).
    { apply (Z.div_unique_pos now 30 ((now - 29) / 30) 29); [lia |].
      pose proof (Z.div_mod (now - 29) 30 ltac:(lia)) as Hd.
      assert (Hm : (now - 29) mod 30 = 0).
      { replace (now - 29) with (30 * (now / 30)) by lia.
        rewrite Z.mul_comm. apply Z.mod_mul. lia. }
      lia. }
    split.
    { replace (now - 29) with (30 * (now / 30)) by lia.
      rewrite Z.mul_comm. apply Z.mod_mul. lia. }
    split.
    { symmetry.
      apply (Z.div_unique_pos (now + 1) 30 (now / 30 + 1) 0); lia. }
    unfold autoRefreshTick, readClock. rewrite Hremaining, Hlast.
    destruct (currentSecret a) as [| c secret] eqn:Hs; [contradiction |].
    change (30 - 29 <=? 1) with true. cbn [andb negb].
    unfold generateTOTPCode, readClock. cbn [clock reads].
    assert (Hgen : generate (hostAt h (clock w (S (reads w))))
                     (VString (c :: secret)) None = Normal code).
    { rewrite <- Hcode.
      change (generate (hostAt h (clock w (S (reads w))))
                (VString (c :: secret)) None)
        with (generate h (VString (c :: secret))
                (Some (clock w (S (reads w)) / 1000))).
      rewrite Hsame.
      unfold generate, generateBody, floorDiv, timeStep.
      rewrite Hwindow. reflexivity. }
    rewrite Hgen. split; reflexivity.
Qed.

End Timers.

Lemma validateSecret_trim (h : Host) (value : jsstring) :
  validateSecret h (VString (trim value)) = validateSecret h (VString value).
Proof.
  apply (same_normalized h (trim value) value None).
  unfold normalized.
  change (fun c => isWhiteSpace c || isChar "-" c) with isSeparator.
  rewrite strip_trim. reflexivity.
Qed.

Lemma validateSecretInput_style (h : Host) (value : jsstring) (w : world) :
  validateSecretInput h value w
  = (emit
       (if (length value =? 0)%nat
        then InputStyled (lit "rgba(187, 134, 252, 0.3)") false (lit "1")
        else if regexTest (normalized h value)
                && (16 <=? length (normalized h value))%nat
             then InputStyled (lit "#4caf50") false (lit "1")
             else InputStyled (lit "#f44336") true (lit "0.6")) w,
     Normal tt).
Proof.
  unfold validateSecretInput. rewrite validateSecret_string.
  destruct (length value =? 0)%nat; [reflexivity |].
  destruct (regexTest _ && _); reflexivity.
Qed.

Section Page.

Variable h : Host.
Hypothesis Hupper : HostUpperAscii h.

(** X22: the style [validateSecretInput] gives the field tells what the
    button will do.  For a value that is not empty: when it passes
    [validateSecret] the field turns green, the button is enabled, and
    [generateCode] on the trimmed value displays a code of six digits and
    shows no error; otherwise the field turns red, the button is disabled,
    and [generateCode] on the trimmed value, which the Enter key still
    reaches, shows one error message and displays nothing. *)
Theorem input_style_predicts_generateCode
    (a : instance) (value : jsstring) (w0 w : world) :
  value <> [] ->
  (validateSecret h (VString value) = Normal true ->
   validateSecretInput h value w0
   = (emit (InputStyled (lit "#4caf50") false (lit "1")) w0, Normal tt)
   /\ exists code,
        sixDigits code = true
        /\ codesDisplayed (trace (snd (fst (onGenerate h a value w))))
           = codesDisplayed (trace w) ++ [code]
        /\ errorsShown (trace (snd (fst (onGenerate h a value w))))
           = errorsShown (trace w))
  /\ (validateSecret h (VString value) = Normal false ->
      validateSecretInput h value w0
      = (emit (InputStyled (lit "#f44336") true (lit "0.6")) w0, Normal tt)
      /\ exists message,
           onGenerate h a value w = (a, showError message w, Normal tt)).
Proof.
  intros Hne.
  assert (Hlen : (length value =? 0)%nat = false)
    by (destruct value; [contradiction | reflexivity]).
  split; intros Hvalid.
  - split.
    + rewrite validateSecretInput_style, Hlen.
      rewrite validateSecret_string in Hvalid.
      replace (regexTest (normalized h value)
               && (16 <=? length (normalized h value))%nat) with true
        by congruence.
      reflexivity.
    + unfold onGenerate.
      rewrite <- validateSecret_trim in Hvalid.
      destruct (generateCode_valid h Hupper a (trim value) w Hvalid)
        as (code & _ & Hsix & ->).
      exists code. split; [exact Hsix |].
      cbn [fst snd trace]. unfold codesDisplayed, errorsShown.
      rewrite !flat_map_app. cbn [flat_map List.app].
      rewrite app_nil_r. split; reflexivity.
  - split.
    + rewrite validateSecretInput_style, Hlen.
      rewrite validateSecret_string in Hvalid.
      replace (regexTest (normalized h value)
               && (16 <=? length (normalized h value))%nat) with false
        by congruence.
      reflexivity.
    + unfold onGenerate.
      rewrite <- validateSecret_trim in Hvalid.
      destruct (trim value) as [| c rest] eqn:Htrim.
      * eexists. reflexivity.
      * eexists. apply (generateCode_invalid h); [discriminate | exact Hvalid].
Qed.

(** The invariant of the page: a stored secret has passed [validateSecret],
    and every effect so far is an expected one. *)
Lemma step_expected (a : instance) (w : world) (act : action) :
  (currentSecret a = []
   \/ validateSecret h (VString (currentSecret a)) = Normal true) ->
  Forall expected (trace w) ->
  (currentSecret (fst (step h (a, w) act)) = []
   \/ validateSecret h (VString (currentSecret (fst (step h (a, w) act))))
      = Normal true)
  /\ Forall expected (trace (snd (step h (a, w) act))).
Proof.
  intros Hsecret Htrace.
  assert (Hemit : forall e, expected e -> Forall expected (trace (emit e w))).
  { intros e He. unfold emit. cbn [trace].
    apply Forall_app. split; [exact Htrace | repeat constructor; exact He]. }
  assert (Hmessage : forall message : string,
             lit message
             <> lit "Error generating code. Please check your secret key." ->
             Forall expected (trace (showError (lit message) w)))
    by (intros message Hm; apply Hemit; exact Hm).
  destruct act as [value | value | | |]; cbn [step].
  - unfold onGenerate.
    destruct (trim value) as [| c rest] eqn:Htrim.
    + cbn [generateCode fst snd]. split; [exact Hsecret |].
      apply Hmessage. intros Heq. vm_compute in Heq. discriminate Heq.
    + destruct (validateSecret_boolean h (c :: rest)) as [Hvalid | Hinvalid].
      * destruct (generateCode_valid h Hupper a (c :: rest) w Hvalid)
          as (code & _ & Hsix & ->).
        cbn [fst snd currentSecret trace]. split; [right; exact Hvalid |].
        apply Forall_app. split; [exact Htrace |].
        repeat constructor. exact Hsix.
      * rewrite (generateCode_invalid h a (c :: rest) w
                   ltac:(discriminate) Hinvalid).
        cbn [fst snd]. split; [exact Hsecret |].
        apply Hmessage. intros Heq. vm_compute in Heq. discriminate Heq.
  - cbn [fst snd]. split; [exact Hsecret |].
    unfold onInput. rewrite validateSecretInput_style. cbn [fst].
    apply Hemit.
    destruct (length value =? 0)%nat; [exact I |].
    destruct (regexTest _ && _); exact I.
  - cbn [fst snd]. split; [exact Hsecret |].
    unfold updateTimer, readClock, emit. cbn [trace].
    apply Forall_app. split; [exact Htrace | repeat constructor].
  - cbn [fst snd]. split; [exact Hsecret |].
    unfold autoRefreshTick, readClock.
    destruct (currentSecret a) as [| c rest] eqn:Hs.
    + rewrite andb_false_r. exact Htrace.
    + destruct Hsecret as [Hempty | Hvalid]; [discriminate Hempty |].
      destruct (_ <=? 1); cbn [andb negb fst]; [| exact Htrace].
      unfold generateTOTPCode, readClock. cbn [clock reads].
      destruct (generate_validated
                  (hostAt h (clock w (S (reads w)))) (c :: rest) None
                  (hostAt_upperAscii h _ Hupper) Hvalid)
        as (code & -> & Hsix).
      unfold displayCode, emit. cbn [fst trace].
      apply Forall_app. split; [exact Htrace | repeat constructor; exact Hsix].
  - unfold stopTimers, clearInterval, emit.
    destruct (timerInterval a), (codeGenerationInterval a);
      cbn [fst snd currentSecret trace codeGenerationInterval timerInterval];
      (split; [exact Hsecret |]);
      repeat (apply Forall_app; split); try exact Htrace;
      repeat constructor.
Qed.

(** X23: whatever happens to a page from the moment it is loaded, in any
    order (codes requested with any values, input events, ticks of the
    two intervals, [stopTimers]), every code it displays is six decimal
    digits, never ["ERROR"], the message of the catch clause of
    [generateCode] is never shown, and the stored secret, when there is
    one, has passed [validateSecret]. *)
Theorem page_displays_codes_only (acts : list action) (clock : nat -> Z) :
  let st := run h acts (initial, loaded clock) in
  Forall (fun code => sixDigits code = true) (codesDisplayed (trace (snd st)))
  /\ ~ In (lit "Error generating code. Please check your secret key.")
          (errorsShown (trace (snd st)))
  /\ (currentSecret (fst st) = []
      \/ validateSecret h (VString (currentSecret (fst st))) = Normal true).
Proof.
  intros st.
  assert (Hinv : forall acts0 a w,
             (currentSecret a = []
              \/ validateSecret h (VString (currentSecret a)) = Normal true) ->
             Forall expected (trace w) ->
             (currentSecret (fst (run h acts0 (a, w))) = []
              \/ validateSecret h
                   (VString (currentSecret (fst (run h acts0 (a, w)))))
                 = Normal true)
             /\ Forall expected (trace (snd (run h acts0 (a, w))))).
  { induction acts0 as [| act acts0 IH]; intros a w Hs Ht.
    - split; assumption.
    - unfold run. cbn [fold_left]. fold (run h acts0 (step h (a, w) act)).
      destruct (step_expected a w act Hs Ht) as [Hs' Ht'].
      destruct (step h (a, w) act) as [a' w'].
      apply IH; assumption. }
  destruct (Hinv acts initial (loaded clock) (or_introl eq_refl)
              (Forall_nil _)) as [Hsecret Htrace].
  fold st in Hsecret, Htrace.
  split; [| split; [| exact Hsecret]].
  - unfold codesDisplayed. apply Forall_flat_map.
    apply (Forall_impl _ (P := expected)); [| exact Htrace].
    intros e He. destruct e; try constructor. exact He. constructor.
  - unfold errorsShown. rewrite in_flat_map.
    intros (e & Hin & Hmsg). rewrite Forall_forall in Htrace.
    specialize (Htrace e Hin).
    destruct e; try contradiction.
    destruct Hmsg as [Heq | []]. exact (Htrace Heq).
Qed.

End Page.

Lemma input_style_predicts_generateCode_witness :
  HostUpperAscii (plainHost 0)
  /\ lit " JBSW Y3DP EHPK 3PXP " <> []
  /\ validateSecret (plainHost 0) (VString (lit " JBSW Y3DP EHPK 3PXP "))
     = Normal true
  /\ validateSecretInput (plainHost 0) (lit " JBSW Y3DP EHPK 3PXP ")
       (loaded (fun _ => 0))
     = (emit (InputStyled (lit "#4caf50") false (lit "1"))
          (loaded (fun _ => 0)), Normal tt).
Proof.
  assert (Hne : lit " JBSW Y3DP EHPK 3PXP " <> []) by discriminate.
  assert (Hvalid : validateSecret (plainHost 0)
                     (VString (lit " JBSW Y3DP EHPK 3PXP ")) = Normal true)
    by reflexivity.
  split; [apply plainHost_upperAscii |]. split; [exact Hne |].
  split; [exact Hvalid |].
  destruct (input_style_predicts_generateCode (plainHost 0)
              (plainHost_upperAscii 0) initial (lit " JBSW Y3DP EHPK 3PXP ")
              (loaded (fun _ => 0)) (loaded (fun _ => 0)) Hne)
    as [Hgreen _].
  destruct (Hgreen Hvalid) as [Hstyle _]. exact Hstyle.
Defined.

Lemma page_displays_codes_only_witness :
  HostUpperAscii (plainHost 0)
  /\ Forall (fun code => sixDigits code = true)
       (codesDisplayed
          (trace
             (snd (run (plainHost 0)
                     [Generate (lit "JBSWY3DPEHPK3PXP"); RefreshTick; Stop]
                     (initial, loaded (fun _ => 59000)))))).
Proof.
  split; [apply plainHost_upperAscii |].
  destruct (page_displays_codes_only (plainHost 0) (plainHost_upperAscii 0)
              [Generate (lit "JBSWY3DPEHPK3PXP"); RefreshTick; Stop]
              (fun _ => 59000)) as [Hcodes _].
  exact Hcodes.
Defined.

Section Intervals.

Variable h : Host.
Hypothesis Hupper : HostUpperAscii h.

Lemma step_generate_valid (a : instance) (value : jsstring) (w : world) :
  validateSecret h (VString value) = Normal true ->
  exists code remaining,
    step h (a, w) (Generate value)
    = ({| currentSecret := trim value;
          timerInterval := Some (nextHandle w);
          codeGenerationInterval := Some (Pos.succ (nextHandle w)) |},
       {| clock := clock w; reads := S (S (reads w));
          nextHandle := Pos.succ (Pos.succ (nextHandle w));
          trace :=
            trace w
              ++ [CodeDisplayed code; TimerUpdated remaining;
                  IntervalSet (nextHandle w) UpdateTimer;
                  IntervalSet (Pos.succ (nextHandle w)) AutoRefresh] |}).
Proof.
  intros Hvalid. rewrite <- validateSecret_trim in Hvalid.
  destruct (generateCode_valid h Hupper a (trim value) w Hvalid)
    as (code & _ & _ & Heq).
  exists code. eexists. cbn [step]. unfold onGenerate. rewrite Heq.
  reflexivity.
Qed.

(** X20: [stopTimers] clears the two intervals whose handles are stored and
    no other.  On a page just loaded, after one code has been generated it
    leaves no interval running, and a second [stopTimers] changes nothing;
    but generating a second code overwrites the stored handles without
    clearing them, so that after [stopTimers] the two intervals of the
    first call are still running while both fields are [null]. *)
Theorem stopTimers_clears_stored_handles_only
    (clock : nat -> Z) (first second : jsstring) :
  validateSecret h (VString first) = Normal true ->
  validateSecret h (VString second) = Normal true ->
  let page := (initial, loaded clock) in
  let running acts := activeIntervals (trace (snd (run h acts page))) in
  running [Generate first] = [1; 2]%positive
  /\ running [Generate first; Stop] = []
  /\ run h [Generate first; Stop; Stop] page
     = run h [Generate first; Stop] page
  /\ running [Generate first; Generate second] = [1; 2; 3; 4]%positive
  /\ running [Generate first; Generate second; Stop] = [1; 2]%positive
  /\ timerInterval (fst (run h [Generate first; Generate second; Stop] page))
     = None
  /\ codeGenerationInterval
       (fst (run h [Generate first; Generate second; Stop] page))
     = None.
Proof.
  intros Hfirst Hsecond page running. unfold running, run, page.
  cbn [fold_left].
  destruct (step_generate_valid initial first (loaded clock) Hfirst)
    as (code1 & remaining1 & ->).
  match goal with
  | |- context [step h (?a, ?w) (Generate second)] =>
      destruct (step_generate_valid a second w Hsecond)
        as (code2 & remaining2 & ->)
  end.
  repeat split.
Qed.

End Intervals.

Lemma stopTimers_clears_stored_handles_only_witness :
  HostUpperAscii (plainHost 0)
  /\ validateSecret (plainHost 0) (VString (lit "JBSWY3DPEHPK3PXP"))
     = Normal true
  /\ activeIntervals
       (trace
          (snd (run (plainHost 0)
                  [Generate (lit "JBSWY3DPEHPK3PXP");
                   Generate (lit "JBSWY3DPEHPK3PXP"); Stop]
                  (initial, loaded (fun _ => 0)))))
     = [1; 2]%positive.
Proof.
  assert (Hvalid : validateSecret (plainHost 0)
                     (VString (lit "JBSWY3DPEHPK3PXP")) = Normal true)
    by reflexivity.
  split; [apply plainHost_upperAscii |]. split; [exact Hvalid |].
  destruct (stopTimers_clears_stored_handles_only (plainHost 0)
              (plainHost_upperAscii 0) (fun _ => 0)
              (lit "JBSWY3DPEHPK3PXP") (lit "JBSWY3DPEHPK3PXP")
              Hvalid Hvalid) as (_ & _ & _ & _ & Hleft & _).
  exact Hleft.
Defined.

(** The clock at 59 seconds, the last second of the second window. *)
Lemma autoRefreshTick_displays_expiring_code_witness :
  0 <= clock (loaded (fun _ => 59000)) (reads (loaded (fun _ => 59000)))
  /\ (59000 / 1000) mod 30 = 29
  /\ exists code,
       generate (plainHost 0) (VString (lit "JBSWY3DPEHPK3PXP"))
         (Some (59000 / 1000 - 29)) = Normal code
       /\ trace
            (fst (autoRefreshTick (plainHost 0)
                    {| currentSecret := lit "JBSWY3DPEHPK3PXP";
                       timerInterval := Some 1%positive;
                       codeGenerationInterval := Some 2%positive |}
                    (loaded (fun _ => 59000))))
          = trace (loaded (fun _ => 59000)) ++ [CodeDisplayed code].
Proof.
  assert (Hclock : 0 <= clock (loaded (fun _ => 59000))
                          (reads (loaded (fun _ => 59000))))
    by (simpl; lia).
  split; [exact Hclock |]. split; [reflexivity |].
  destruct (autoRefreshTick_displays_expiring_code (plainHost 0)
              {| currentSecret := lit "JBSWY3DPEHPK3PXP";
                 timerInterval := Some 1%positive;
                 codeGenerationInterval := Some 2%positive |}
              (loaded (fun _ => 59000)) Hclock) as [_ Hlast].
  destruct (Hlast eq_refl ltac:(discriminate) eq_refl)
    as (code & Hcode & _ & _ & Htrace & _).
  exists code. split; [exact Hcode | exact Htrace].
Defined.

(** The counter 1 for [intToBytes_round_trip]. *)
Lemma intToBytes_round_trip_witness :
  0 <= 1 < 2 ^ 64 /\ RFC.fromBigEndian (intToBytes 1) = 1.
Proof.
  assert (Hrange : 0 <= 1 < 2 ^ 64) by lia.
  split; [exact Hrange |].
  destruct (intToBytes_round_trip 1) as (_ & _ & _ & Hback).
  exact (Hback Hrange).
Defined.

(** The message ["a"] for [sha1Pad_high_word]. *)
Lemma sha1Pad_high_word_witness :
  [97] <> []
  /\ Z.of_nat (length [97]) * 8 < 2 ^ 32
  /\ firstn 4 (skipn (length (sha1Pad [97]) - 8) (sha1Pad [97]))
     <> [0; 0; 0; 0].
Proof.
  assert (Hne : [97] <> []) by discriminate.
  assert (Hsmall : Z.of_nat (length [97]) * 8 < 2 ^ 32) by (simpl; lia).
  split; [exact Hne |]. split; [exact Hsmall |].
  exact (sha1Pad_high_word [97] Hne Hsmall).
Defined.
